(** * Stepper: retrieval scoring and the step state machine

    A shallow embedding of two modules of the Stepper browser extension:

    - [src/retrieval.js]: [normalizeQuery], [scoreArticle],
      [retrieveArticles], [getArticleById] and [findBestMatch];
    - [src/stepper.js]: the class [StepperStateMachine];
    - the class [StepManager], and the parts of the side panel scripts
      that decide what to show from the results of those calls.

    JavaScript strings are sequences of code units.  The embedding covers
    the code units U+0000 to U+00FF, which are the inhabitants of Rocq's
    [ascii]; on that range [toLowerCase], [\s] and [\w] are given exactly.
    Numbers are integers ([Z]).  The clock ([new Date().toISOString()]) is
    an explicit argument [now] of every method that reads it. *)

From Stdlib Require Import List String Ascii ZArith Lia Bool Arith.
From Stdlib Require Import Permutation Sorted.
Import ListNotations.

Local Open Scope string_scope.
Local Open Scope Z_scope.

(** ** The fragment of the JavaScript runtime the two modules use *)

Module JS.

Definition code (c : ascii) : N := N_of_ascii c.

Definition between (lo hi : N) (c : ascii) : bool :=
  ((lo <=? code c) && (code c <=? hi))%N.

(** [\s] of a regular expression, and the white space [trim] removes:
    TAB, LF, VT, FF, CR, SP and NBSP below U+0100. *)
Definition isWhiteSpace (c : ascii) : bool :=
  between 9 13 c || (code c =? 32)%N || (code c =? 160)%N.

Definition isDigit (c : ascii) : bool := between 48 57 c.

Definition isAsciiLetter (c : ascii) : bool :=
  between 65 90 c || between 97 122 c.

(** [\w] is [[A-Za-z0-9_]]. *)
Definition isWordChar (c : ascii) : bool :=
  isAsciiLetter c || isDigit c || (code c =? 95)%N.

(** [String.prototype.toLowerCase] on one code unit: A-Z, and the
    Latin-1 capitals U+00C0..U+00DE except the multiplication sign. *)
Definition toLowerChar (c : ascii) : ascii :=
  if between 65 90 c || (between 192 222 c && negb (code c =? 215)%N)
  then ascii_of_N (code c + 32)
  else c.

Fixpoint mapChars (f : ascii -> ascii) (s : string) : string :=
  match s with
  | EmptyString => EmptyString
  | String c t => String (f c) (mapChars f t)
  end.

Fixpoint allChars (p : ascii -> bool) (s : string) : bool :=
  match s with
  | EmptyString => true
  | String c t => p c && allChars p t
  end.

Definition toLowerCase (s : string) : string := mapChars toLowerChar s.

(** [s.trim().length === 0]: nothing but white space in [s]. *)
Definition trimIsEmpty (s : string) : bool := allChars isWhiteSpace s.

(** [s.replace(/[^\w\s]/g, ' ')]. *)
Definition replaceNonWord (s : string) : string :=
  mapChars (fun c => if isWordChar c || isWhiteSpace c then c else " "%char) s.

(** [s.split(/\s+/)]: the pieces between maximal runs of white space.
    A run at either end of [s] leaves an empty piece there, and the empty
    string splits into one empty piece.  [cur] is the piece being read and
    [inSep] tells that the previous character belonged to a separator. *)
Fixpoint splitLoop (cur : string) (inSep : bool) (s : string) : list string :=
  match s with
  | EmptyString => [cur]
  | String c t =>
      if isWhiteSpace c
      then if inSep then splitLoop cur true t
           else cur :: splitLoop EmptyString true t
      else splitLoop (cur ++ String c EmptyString) false t
  end.

Definition splitWhiteSpace (s : string) : list string :=
  splitLoop EmptyString false s.

(** [arr.includes(x)] on an array of strings. *)
Definition includes (arr : list string) (x : string) : bool :=
  existsb (String.eqb x) arr.

(** [arr.slice(0, e)]: a negative [e] counts from the end. *)
Definition slice0 {A} (arr : list A) (e : Z) : list A :=
  let len := Z.of_nat (List.length arr) in
  let final := if e <? 0 then Z.max (len + e) 0 else Z.min e len in
  firstn (Z.to_nat final) arr.

(** [arr.sort(cmp)]: the sort of the language is stable; it is given
    here as the insertion sort that, among elements the comparator does not
    separate, keeps the one that came first in front. *)
Section Sort.
Context {A : Type} (cmp : A -> A -> Z).

Fixpoint insertSorted (x : A) (l : list A) : list A :=
  match l with
  | [] => [x]
  | y :: t => if cmp x y <=? 0 then x :: y :: t else y :: insertSorted x t
  end.

Fixpoint sort (l : list A) : list A :=
  match l with
  | [] => []
  | x :: t => insertSorted x (sort t)
  end.
End Sort.

(** A [Set] of strings keeps its elements in insertion order;
    [set.add(x)] appends [x] unless it is already a member. *)
Fixpoint setAdd (x : string) (s : list string) : list string :=
  match s with
  | [] => [x]
  | y :: t => if String.eqb x y then y :: t else y :: setAdd x t
  end.

End JS.

(** ** Articles of the knowledge base *)

Record Step := mkStep {
  step_id : string;
  step_text : string;
  step_expectedResult : option string;
  step_sayToCustomer : option string
}.

Record FallbackPath := mkFallback {
  fb_id : string;
  fb_condition : string;
  fb_steps : option (list Step)
}.

(** A field that may be missing from the object is an [option]. *)
Record Article := mkArticle {
  art_id : Z;
  art_title : option string;
  art_tags : option (list string);
  art_product : option string;
  art_summary : option string;
  art_steps : option (list Step);
  art_fallbacks : option (list FallbackPath)
}.

(** ** src/retrieval.js *)

Module Retrieval.

Definition normalizeQuery (query : string) : list string :=
  if (String.eqb query "" || JS.trimIsEmpty query)%bool then []
  else
    let normalized := JS.toLowerCase query in
    let normalized := JS.replaceNonWord normalized in
    filter (fun token => (0 <? Z.of_nat (String.length token)))
           (JS.splitWhiteSpace normalized).

(** The inner [forEach] of [scoreArticle]: [score += w] for every token
    of the field that the query tokens include. *)
Definition addMatches (w : Z) (queryTokens fieldTokens : list string)
    (score : Z) : Z :=
  fold_left
    (fun score token => if JS.includes queryTokens token then score + w else score)
    fieldTokens score.

(** [if (article.product)] and [if (article.title)]: a missing field and
    the empty string are both falsy. *)
Definition truthyString (o : option string) : option string :=
  match o with
  | Some s => if String.eqb s "" then None else Some s
  | None => None
  end.

Definition scoreArticle (article : Article) (queryTokens : list string) : Z :=
  let score := 0 in
  let score :=
    match art_tags article with
    | Some tags =>
        fold_left
          (fun score tag => addMatches 3 queryTokens (normalizeQuery tag) score)
          tags score
    | None => score
    end in
  let score :=
    match truthyString (art_product article) with
    | Some product => addMatches 2 queryTokens (normalizeQuery product) score
    | None => score
    end in
  let score :=
    match truthyString (art_title article) with
    | Some title => addMatches 1 queryTokens (normalizeQuery title) score
    | None => score
    end in
  score.

Record Scored := mkScored {
  sc_article : Article;
  sc_score : Z
}.

Record Match := mkMatch {
  m_id : Z;
  m_title : option string;
  m_summary : option string;
  m_product : option string;
  m_score : Z;
  m_article : Article
}.

(** The result object; [topScore] is absent from the early return. *)
Record Result := mkResult {
  matches : list Match;
  lowConfidence : bool;
  topScore : option Z;
  query : string
}.

Definition toMatch (m : Scored) : Match :=
  let a := sc_article m in
  mkMatch (art_id a) (art_title a) (art_summary a) (art_product a)
          (sc_score m) a.

(** The comparator handed to [sort]. *)
Definition byScoreDesc (a b : Scored) : Z := sc_score b - sc_score a.

Definition scoreAll (kb : list Article) (queryTokens : list string)
    : list Scored :=
  map (fun article => mkScored article (scoreArticle article queryTokens)) kb.

(** [enhancedKnowledgeBase] is imported from [kb.mock.js]; it is the
    argument [kb] here. *)
Definition retrieveArticles (kb : list Article) (query : string) (topN : Z)
    : Result :=
  let queryTokens := normalizeQuery query in
  if (Z.of_nat (List.length queryTokens) =? 0) then
    mkResult [] false None query
  else
    let scoredArticles := scoreAll kb queryTokens in
    let topMatches :=
      filter (fun m => 0 <? sc_score m)
             (JS.slice0 (JS.sort byScoreDesc scoredArticles) topN) in
    let topScore :=
      match topMatches with
      | m :: _ => sc_score m
      | [] => 0
      end in
    let lowConfidence := topScore <? 9 in
    mkResult (map toMatch topMatches) lowConfidence (Some topScore) query.

(** [enhancedKnowledgeBase.find(article => article.id === id) || null]. *)
Definition getArticleById (kb : list Article) (id : Z) : option Article :=
  find (fun article => art_id article =? id) kb.

Definition findBestMatch (kb : list Article) (query : string)
    : option Article :=
  let results := retrieveArticles kb query 1 in
  if 0 <? Z.of_nat (List.length (matches results)) then
    option_map m_article (hd_error (matches results))
  else None.

End Retrieval.

(** ** src/stepper.js *)

Module Stepper.

Record AttemptedPath := mkAttempt {
  ap_path : string;
  ap_startedAt : string
}.

Record FailureRecord := mkFailure {
  f_stepId : string;
  f_reasonCategory : string;
  f_note : string;
  f_timestamp : string
}.

(** [this.state]. *)
Record State := mkState {
  selectedArticleId : option Z;
  activePath : string;
  currentStepIndex : Z;
  completedStepIds : list string;
  attemptedPaths : list AttemptedPath;
  failureHistory : list FailureRecord
}.

(** [reset()] installs this state; the constructor calls [reset()]. *)
Definition initialState : State :=
  mkState None "main" 0 [] [] [].

Definition reset (s : State) : State := initialState.

(** [article.fallbacks?.find(f => f.id === this.state.activePath)]. *)
Definition findFallback (article : Article) (path : string)
    : option FallbackPath :=
  match art_fallbacks article with
  | Some fallbacks => find (fun f => String.eqb (fb_id f) path) fallbacks
  | None => None
  end.

Definition lengthZ {A} (l : list A) : Z := Z.of_nat (List.length l).

(** The argument [article] may be [null]: [None]. *)
Definition getTotalSteps (article : option Article) (s : State) : Z :=
  match article with
  | None => 0
  | Some article =>
      if String.eqb (activePath s) "main" then
        match art_steps article with
        | Some steps => lengthZ steps
        | None => 0
        end
      else
        match findFallback article (activePath s) with
        | Some fallback =>
            match fb_steps fallback with
            | Some steps => lengthZ steps
            | None => 0
            end
        | None => 0
        end
  end.

Definition getStepsForActivePath (article : option Article) (s : State)
    : list Step :=
  match article with
  | None => []
  | Some article =>
      if String.eqb (activePath s) "main" then
        match art_steps article with
        | Some steps => steps
        | None => []
        end
      else
        match findFallback article (activePath s) with
        | Some fallback =>
            match fb_steps fallback with
            | Some steps => steps
            | None => []
            end
        | None => []
        end
  end.

(** [steps[i]]: [undefined] outside the array. *)
Definition index {A} (steps : list A) (i : Z) : option A :=
  if i <? 0 then None else nth_error steps (Z.to_nat i).

(** [None] stands for both [null] and [undefined]: the callers only test
    the result for truthiness. *)
Definition getCurrentStep (article : option Article) (s : State)
    : option Step :=
  match article with
  | None => None
  | Some _ =>
      let steps := getStepsForActivePath article s in
      if lengthZ steps <=? currentStepIndex s then None
      else index steps (currentStepIndex s)
  end.

Record StartResult := mkStart {
  sr_totalSteps : Z;
  sr_currentStep : option Step
}.

Definition startArticle (articleId : Z) (article : option Article)
    (now : string) (s : State) : StartResult * State :=
  let s := reset s in
  let s := mkState (Some articleId) "main" 0
             (completedStepIds s)
             (attemptedPaths s ++ [mkAttempt "main" now])
             (failureHistory s) in
  (mkStart (getTotalSteps article s) (getCurrentStep article s), s).

(** What [continue] returns: the bare [{ completed: true }] of the early
    return, or the full object. *)
Inductive ContinueResult :=
| AlreadyDone
| Advanced (completed : bool) (nextStep : option Step)
           (currentStepIndex totalSteps : Z).

Definition cr_completed (r : ContinueResult) : bool :=
  match r with
  | AlreadyDone => true
  | Advanced completed _ _ _ => completed
  end.

Definition continue (article : option Article) (s : State)
    : ContinueResult * State :=
  match getCurrentStep article s with
  | None => (AlreadyDone, s)
  | Some currentStep =>
      let s := mkState (selectedArticleId s) (activePath s)
                 (currentStepIndex s + 1)
                 (JS.setAdd (step_id currentStep) (completedStepIds s))
                 (attemptedPaths s) (failureHistory s) in
      let steps := getStepsForActivePath article s in
      let isLastStep := lengthZ steps <=? currentStepIndex s in
      (Advanced isLastStep
         (if isLastStep then None else getCurrentStep article s)
         (currentStepIndex s) (getTotalSteps article s), s)
  end.

Inductive BackResult :=
| BackOk (currentStepIndex : Z)
| BackFailed (message : string).

Definition br_success (r : BackResult) : bool :=
  match r with
  | BackOk _ => true
  | BackFailed _ => false
  end.

Definition back (s : State) : BackResult * State :=
  if 0 <? currentStepIndex s then
    let s := mkState (selectedArticleId s) (activePath s)
               (currentStepIndex s - 1)
               (completedStepIds s) (attemptedPaths s) (failureHistory s) in
    (BackOk (currentStepIndex s), s)
  else (BackFailed "Already at first step", s).

Definition recordFailure (stepId reasonCategory note now : string)
    (s : State) : FailureRecord * State :=
  let failure := mkFailure stepId reasonCategory note now in
  (failure,
   mkState (selectedArticleId s) (activePath s) (currentStepIndex s)
     (completedStepIds s) (attemptedPaths s)
     (failureHistory s ++ [failure])).

(** The method has two parameters; whatever a caller passes after
    [article] is dropped by the language. *)
Definition switchToFallback (fallbackId : string) (article : option Article)
    (now : string) (s : State) : StartResult * State :=
  let s := mkState (selectedArticleId s) fallbackId 0
             (completedStepIds s)
             (attemptedPaths s ++ [mkAttempt fallbackId now])
             (failureHistory s) in
  (mkStart (getTotalSteps article s) (getCurrentStep article s), s).

Definition isComplete (article : option Article) (s : State) : bool :=
  let steps := getStepsForActivePath article s in
  lengthZ steps <=? currentStepIndex s.

(** One call on the state machine. *)
Inductive Op :=
| OpReset
| OpStartArticle (articleId : Z) (now : string)
| OpContinue
| OpBack
| OpRecordFailure (stepId reasonCategory note now : string)
| OpSwitchToFallback (fallbackId now : string).

Definition step (article : option Article) (s : State) (op : Op) : State :=
  match op with
  | OpReset => reset s
  | OpStartArticle articleId now => snd (startArticle articleId article now s)
  | OpContinue => snd (continue article s)
  | OpBack => snd (back s)
  | OpRecordFailure stepId reason note now =>
      snd (recordFailure stepId reason note now s)
  | OpSwitchToFallback fallbackId now =>
      snd (switchToFallback fallbackId article now s)
  end.

(** A sequence of calls, all with the same article. *)
Definition run (article : option Article) (s : State) (ops : list Op) : State :=
  fold_left (step article) ops s.

Definition isRecordFailure (op : Op) : bool :=
  match op with
  | OpRecordFailure _ _ _ _ => true
  | _ => false
  end.

(** The calls that move inside a session; [reset] and [startArticle]
    begin a new one. *)
Definition isSessionStart (op : Op) : bool :=
  match op with
  | OpReset | OpStartArticle _ _ => true
  | _ => false
  end.

(** The index points into the steps of the active path, or just past
    them. *)
Definition indexInRange (article : option Article) (s : State) : Prop :=
  0 <= currentStepIndex s <= lengthZ (getStepsForActivePath article s).

(** [n] calls of [continue] in a row. *)
Fixpoint continueTimes (n : nat) (article : option Article) (s : State)
    : State :=
  match n with
  | O => s
  | S k => snd (continue article (continueTimes k article s))
  end.

Definition isContinue (op : Op) : bool :=
  match op with
  | OpContinue => true
  | _ => false
  end.

Record CompletionSummary := mkSummary {
  cs_completedSteps : list string;
  cs_failureHistory : list FailureRecord;
  cs_attemptedPaths : list AttemptedPath;
  cs_completedAt : string
}.

(** [Array.from] of the set is the list of its elements in insertion
    order. *)
Definition getCompletionSummary (now : string) (s : State)
    : CompletionSummary :=
  mkSummary (completedStepIds s) (failureHistory s) (attemptedPaths s) now.

(** [{ ...this.state, completedStepIds: Array.from(...) }]: the same
    fields, the set as an array. *)
Definition getState (s : State) : State :=
  mkState (selectedArticleId s) (activePath s) (currentStepIndex s)
    (completedStepIds s) (attemptedPaths s) (failureHistory s).

End Stepper.

(** ** Reference definitions, written from the specification *)

Module Reference.

(** The letters of Unicode below U+0100. *)
Definition isLetter (c : ascii) : bool :=
  JS.isAsciiLetter c
  || (JS.code c =? 170)%N || (JS.code c =? 181)%N || (JS.code c =? 186)%N
  || JS.between 192 214 c || JS.between 216 246 c || JS.between 248 255 c.

Definition keeps (c : ascii) : bool :=
  isLetter c || JS.isDigit c || JS.isWhiteSpace c.

(** Normalization as the specification words it: lower-case, replace
    every character that is not a letter, a digit or white space by one
    space, split on white space, drop the empty tokens. *)
Definition normalize (s : string) : list string :=
  let lowered := JS.toLowerCase s in
  let replaced :=
    JS.mapChars (fun c => if keeps c then c else " "%char) lowered in
  filter (fun token => negb (String.eqb token ""))
         (JS.splitWhiteSpace replaced).

(** How many tokens of a field occur among the query tokens, each
    occurrence in the field counted. *)
Definition hits (queryTokens fieldTokens : list string) : Z :=
  Z.of_nat (List.length (filter (JS.includes queryTokens) fieldTokens)).

Definition tagTokens (a : Article) : list string :=
  match art_tags a with
  | Some tags => flat_map Retrieval.normalizeQuery tags
  | None => []
  end.

Definition productTokens (a : Article) : list string :=
  match art_product a with
  | Some product => Retrieval.normalizeQuery product
  | None => []
  end.

Definition titleTokens (a : Article) : list string :=
  match art_title a with
  | Some title => Retrieval.normalizeQuery title
  | None => []
  end.

(** [a] may stand before [b] in a list ranked by descending score. *)
Definition descending (a b : Retrieval.Scored) : Prop :=
  Retrieval.sc_score b <= Retrieval.sc_score a.

(** The entries the returned list keeps. *)
Definition positive (m : Retrieval.Scored) : bool :=
  0 <? Retrieval.sc_score m.

(** The length of the longest leading run of [steps] whose text is among
    [completedTexts]: what the specification has [switchToFallback] skip. *)
Fixpoint leadingRun (completedTexts : list string) (steps : list Step) : nat :=
  match steps with
  | [] => O
  | st :: rest =>
      if JS.includes completedTexts (step_text st)
      then S (leadingRun completedTexts rest)
      else O
  end.

(** A character of a token: a lower-case ASCII letter, a digit or the
    underscore. *)
Definition isTokenChar (c : ascii) : bool :=
  JS.between 97 122 c || JS.isDigit c || (JS.code c =? 95)%N.

(** Every step of an article, on the main path or on a fallback. *)
Definition stepsOrNone (o : option (list Step)) : list Step :=
  match o with
  | Some steps => steps
  | None => []
  end.

Definition allSteps (a : Article) : list Step :=
  (stepsOrNone (art_steps a)
   ++ flat_map (fun fb => stepsOrNone (fb_steps fb))
        (match art_fallbacks a with
         | Some fallbacks => fallbacks
         | None => []
         end))%list.

(** The identifiers of a list of steps, each once, in the order of first
    appearance. *)
Definition collectIds (steps : list Step) : list string :=
  fold_left (fun ids st => JS.setAdd (step_id st) ids) steps [].

(** The lower-cased, replaced text [normalizeQuery] splits. *)
Definition prepared (q : string) : string :=
  JS.replaceNonWord (JS.toLowerCase q).

(** The test of the [filter] in [normalizeQuery]. *)
Definition nonEmpty (token : string) : bool :=
  0 <? Z.of_nat (String.length token).

End Reference.

(** ** Sample data *)

Module Sample.

Definition emailArticle : Article :=
  mkArticle 1 (Some "Email Not Sending") (Some ["email"; "smtp"])
    (Some "Outlook") (Some "Outgoing mail stays in the outbox")
    (Some [mkStep "s1" "Check the connection" None None;
           mkStep "s2" "Restart Outlook" None None])
    (Some [mkFallback "fb1" "Outlook still does not send"
             (Some [mkStep "f1" "Restart Outlook" None None;
                    mkStep "f2" "Recreate the profile" None None])]).

Definition wifiArticle : Article :=
  mkArticle 2 (Some "Wifi Not Working") (Some ["wifi"; "network"])
    (Some "Windows") None None None.

Definition printerArticle : Article :=
  mkArticle 3 (Some "Printer Offline") (Some ["printer"; "network"])
    (Some "Windows") None None None.

Definition kb : list Article := [emailArticle; wifiArticle; printerArticle].

End Sample.

(** ** The side panel script that drives [StepperStateMachine] *)

Module SidePanel.

(** What [renderCurrentStep] puts on screen: the completion summary, or
    the card of a step with its number and the state of the Back button. *)
Inductive View :=
| CompletionView
| StepCardView (stepNumber : Z) (step : Step) (backDisabled : bool).

Definition renderCurrentStep (currentArticle : option Article)
    (s : Stepper.State) : View :=
  let step := Stepper.getCurrentStep currentArticle s in
  let state := Stepper.getState s in
  match step with
  | None => CompletionView
  | Some step =>
      if Stepper.isComplete currentArticle s then CompletionView
      else StepCardView (Stepper.currentStepIndex state + 1) step
             (Stepper.currentStepIndex state =? 0)
  end.

Definition handleContinue (currentArticle : option Article)
    (s : Stepper.State) : View * Stepper.State :=
  let (result, s) := Stepper.continue currentArticle s in
  if Stepper.cr_completed result then (CompletionView, s)
  else (renderCurrentStep currentArticle s, s).

(** [showCompletion]: one entry per completed step identifier that
    [steps.find] locates on the active path, in the order of the summary. *)
Definition completedStepsShown (currentArticle : option Article)
    (now : string) (s : Stepper.State) : list Step :=
  let summary := Stepper.getCompletionSummary now s in
  let steps := Stepper.getStepsForActivePath currentArticle s in
  fold_left
    (fun shown stepId =>
       match find (fun st => String.eqb (step_id st) stepId) steps with
       | Some step => (shown ++ [step])%list
       | None => shown
       end)
    (Stepper.cs_completedSteps summary) [].

End SidePanel.

(** ** The search panel that calls [retrieveArticles] *)

Module SearchPanel.

Definition getScoreBadgeClass (score : Z) : string :=
  if 6 <=? score then "score-high"
  else if 3 <=? score then "score-medium"
  else "score-low".

End SearchPanel.

(** ** The class [StepManager] *)

Module StepManager.

(** A step is a plain string or an object with the fields
    [say_to_customer] and [text]. *)
Inductive StepEntry :=
| SimpleStep (text : string)
| EnhancedStep (say_to_customer text : option string).

(** [setArticle] reads [article.steps.length]: the array is there. *)
Record ManagedArticle := mkManaged {
  ma_title : option string;
  ma_summary : option string;
  ma_steps : list StepEntry
}.

Record Manager := mkManager {
  currentArticle : option ManagedArticle;
  currentStepIndex : Z;
  maxSteps : Z
}.

(** The constructor, and [clear()]. *)
Definition emptyManager : Manager := mkManager None 0 0.

Definition setArticle (article : ManagedArticle) (m : Manager) : Manager :=
  mkManager (Some article) 0 (Stepper.lengthZ (ma_steps article)).

Record StepInfo := mkInfo {
  stepNumber : Z;
  totalSteps : Z;
  stepText : option string;
  isFirst : bool;
  isLast : bool;
  articleTitle : option string;
  articleSummary : option string
}.

(** A call returns a value or throws a [TypeError]. *)
Inductive Outcome (A : Type) :=
| Returned (value : A)
| Thrown.
Arguments Returned {A} value.
Arguments Thrown {A}.

(** [step.say_to_customer || step.text]. *)
Definition textOf (step : StepEntry) : option string :=
  match step with
  | SimpleStep text => Some text
  | EnhancedStep say_to_customer text =>
      match Retrieval.truthyString say_to_customer with
      | Some said => Some said
      | None => text
      end
  end.

(** Outside the array [steps[i]] is [undefined], which is no string, and
    reading [say_to_customer] from it throws. *)
Definition getCurrentStep (m : Manager) : Outcome (option StepInfo) :=
  match currentArticle m with
  | None => Returned None
  | Some article =>
      match Stepper.index (ma_steps article) (currentStepIndex m) with
      | None => Thrown
      | Some step =>
          Returned
            (Some (mkInfo (currentStepIndex m + 1) (maxSteps m) (textOf step)
                     (currentStepIndex m =? 0)
                     (currentStepIndex m =? maxSteps m - 1)
                     (ma_title article) (ma_summary article)))
      end
  end.

Definition hasArticle (m : Manager) : bool :=
  match currentArticle m with
  | Some _ => true
  | None => false
  end.

Definition nextStep (m : Manager) : bool * Manager :=
  if negb (hasArticle m) || (maxSteps m - 1 <=? currentStepIndex m) then
    (false, m)
  else (true, mkManager (currentArticle m) (currentStepIndex m + 1) (maxSteps m)).

Definition previousStep (m : Manager) : bool * Manager :=
  if negb (hasArticle m) || (currentStepIndex m <=? 0) then (false, m)
  else (true, mkManager (currentArticle m) (currentStepIndex m - 1) (maxSteps m)).

Definition reset (m : Manager) : Manager :=
  mkManager (currentArticle m) 0 (maxSteps m).

Definition clear (m : Manager) : Manager := emptyManager.

Definition getArticle (m : Manager) : option ManagedArticle :=
  currentArticle m.

(** The calls that move inside a loaded article. *)
Inductive Move := MoveNext | MovePrevious | MoveReset.

Definition move (m : Manager) (mv : Move) : Manager :=
  match mv with
  | MoveNext => snd (nextStep m)
  | MovePrevious => snd (previousStep m)
  | MoveReset => reset m
  end.

Definition moves (m : Manager) (mvs : list Move) : Manager :=
  fold_left move mvs m.

Fixpoint nextTimes (n : nat) (m : Manager) : Manager :=
  match n with
  | O => m
  | S k => snd (nextStep (nextTimes k m))
  end.

End StepManager.

(** * Properties of the retrieval module *)

Section JSFacts.

Import JS.

(** ** Characters *)

Lemma toLowerChar_whiteSpace (c : ascii) :
  isWhiteSpace c = true -> toLowerChar c = c.
Proof.
  destruct c as [[] [] [] [] [] [] [] []]; vm_compute; congruence.
Qed.

Lemma keeps_whiteSpace (c : ascii) :
  isWhiteSpace c = true -> Reference.keeps c = true.
Proof.
  unfold Reference.keeps. intros ->. apply orb_true_r.
Qed.

(** On a lower-cased character of the ASCII range other than the
    underscore, [\w\s] and "letter, digit or white space" agree. *)
Lemma keeps_agree (c : ascii) :
  (code c <? 128)%N = true -> (code c =? 95)%N = false ->
  (isWordChar (toLowerChar c) || isWhiteSpace (toLowerChar c))%bool
  = Reference.keeps (toLowerChar c).
Proof.
  destruct c as [[] [] [] [] [] [] [] []]; vm_compute; congruence.
Qed.

(** ** Splitting *)

Lemma splitLoop_whiteSpace (s : string) :
  allChars isWhiteSpace s = true ->
  forall inSep, Forall (eq EmptyString) (splitLoop EmptyString inSep s).
Proof.
  induction s as [|c t IH]; simpl; intros Hall inSep.
  - constructor; [reflexivity | constructor].
  - apply andb_true_iff in Hall as [Hc Ht]. rewrite Hc.
    destruct inSep; [apply IH; assumption |].
    constructor; [reflexivity | apply IH; assumption].
Qed.

Lemma filter_none {A} (p : A -> bool) (l : list A) :
  Forall (fun x => p x = false) l -> filter p l = [].
Proof.
  induction 1 as [|x l Hx _ IH]; simpl; [reflexivity |].
  rewrite Hx. exact IH.
Qed.

Lemma mapChars_id_on (f : ascii -> ascii) (p : ascii -> bool) (s : string) :
  (forall c, p c = true -> f c = c) ->
  allChars p s = true -> mapChars f s = s.
Proof.
  intros Hf. induction s as [|c t IH]; simpl; [reflexivity |].
  intros Hall. apply andb_true_iff in Hall as [Hc Ht].
  rewrite (Hf c Hc), (IH Ht). reflexivity.
Qed.

Lemma mapChars_ext_on (f g : ascii -> ascii) (p : ascii -> bool) (s : string) :
  (forall c, p c = true -> f c = g c) ->
  allChars p s = true -> mapChars f s = mapChars g s.
Proof.
  intros Hfg. induction s as [|c t IH]; simpl; [reflexivity |].
  intros Hall. apply andb_true_iff in Hall as [Hc Ht].
  rewrite (Hfg c Hc), (IH Ht). reflexivity.
Qed.

Lemma mapChars_compose (f g : ascii -> ascii) (s : string) :
  mapChars f (mapChars g s) = mapChars (fun c => f (g c)) s.
Proof.
  induction s as [|c t IH]; simpl; [reflexivity | now rewrite IH].
Qed.

Lemma nonEmpty_length (token : string) :
  (0 <? Z.of_nat (String.length token)) = negb (String.eqb token "").
Proof.
  destruct token; simpl; [reflexivity |].
  apply Z.ltb_lt. lia.
Qed.

(** ** Sorting *)

Section SortFacts.
Context {A : Type} (cmp : A -> A -> Z).

Lemma insertSorted_perm (x : A) (l : list A) :
  Permutation (insertSorted cmp x l) (x :: l).
Proof.
  induction l as [|y t IH]; simpl; [apply Permutation_refl |].
  destruct (cmp x y <=? 0); [apply Permutation_refl |].
  eapply perm_trans; [apply perm_skip, IH | apply perm_swap].
Qed.

Lemma sort_perm (l : list A) : Permutation (sort cmp l) l.
Proof.
  induction l as [|x t IH]; simpl; [constructor |].
  eapply perm_trans; [apply insertSorted_perm | apply perm_skip, IH].
Qed.

(** An element moves only past elements the comparator puts strictly
    before it, so a key the comparator respects keeps its class in the
    original order. *)
Lemma insertSorted_filter (p : A -> bool) (x : A) (l : list A) :
  (forall y, p x = true -> p y = true -> cmp x y = 0) ->
  filter p (insertSorted cmp x l) = filter p (x :: l).
Proof.
  intros Hp. induction l as [|y t IH]; [reflexivity |].
  simpl insertSorted. destruct (cmp x y <=? 0) eqn:Hc; [reflexivity |].
  simpl in *. rewrite IH.
  destruct (p x) eqn:Hx; [| reflexivity].
  destruct (p y) eqn:Hy; [| reflexivity].
  rewrite (Hp y eq_refl Hy) in Hc. discriminate.
Qed.
End SortFacts.

Lemma slice0_firstn {A} (l : list A) (e : Z) :
  0 <= e -> slice0 l e = firstn (Z.to_nat e) l.
Proof.
  intros He. unfold slice0.
  destruct (e <? 0) eqn:Hneg; [apply Z.ltb_lt in Hneg; lia |].
  destruct (Z.le_gt_cases e (Z.of_nat (List.length l))) as [Hle | Hgt].
  - rewrite Z.min_l by assumption. reflexivity.
  - rewrite Z.min_r by lia. rewrite Nat2Z.id.
    rewrite firstn_all. symmetry. apply firstn_all2. lia.
Qed.

Lemma firstn_In {A} (n : nat) (l : list A) (y : A) :
  In y (firstn n l) -> In y l.
Proof.
  revert l. induction n as [|n IH]; intros [|x t]; simpl; try tauto.
  intros [-> | Hy]; [left; reflexivity | right; apply IH, Hy].
Qed.

Lemma slice0_is_firstn {A} (l : list A) (e : Z) :
  exists n, slice0 l e = firstn n l.
Proof. unfold slice0. eexists. reflexivity. Qed.

End JSFacts.

Section RetrievalFacts.

Import Retrieval.

Lemma insertSorted_descending (x : Scored) (l : list Scored) :
  StronglySorted Reference.descending l ->
  StronglySorted Reference.descending (JS.insertSorted byScoreDesc x l).
Proof.
  induction 1 as [|y t Hs IH Hall]; simpl.
  - constructor; constructor.
  - unfold byScoreDesc at 1.
    destruct (sc_score y - sc_score x <=? 0) eqn:Hc.
    + apply Z.leb_le in Hc.
      constructor; [constructor; assumption |].
      constructor; [unfold Reference.descending; lia |].
      eapply Forall_impl; [| exact Hall].
      unfold Reference.descending. intros z Hz. lia.
    + apply Z.leb_gt in Hc.
      constructor; [exact IH |].
      eapply Permutation_Forall;
        [apply Permutation_sym, insertSorted_perm |].
      constructor; [unfold Reference.descending; lia | exact Hall].
Qed.

Lemma sort_descending (l : list Scored) :
  StronglySorted Reference.descending (JS.sort byScoreDesc l).
Proof.
  induction l as [|x t IH]; simpl; [constructor |].
  apply insertSorted_descending, IH.
Qed.

Lemma sort_stable (v : Z) (l : list Scored) :
  filter (fun m => sc_score m =? v) (JS.sort byScoreDesc l)
  = filter (fun m => sc_score m =? v) l.
Proof.
  induction l as [|x t IH]; [reflexivity |].
  simpl JS.sort. rewrite insertSorted_filter.
  - simpl. rewrite IH. reflexivity.
  - intros y Hx Hy. apply Z.eqb_eq in Hx, Hy.
    unfold byScoreDesc. lia.
Qed.

Lemma StronglySorted_firstn {A} (R : A -> A -> Prop) (n : nat) (l : list A) :
  StronglySorted R l -> StronglySorted R (firstn n l).
Proof.
  intros Hs. revert n.
  induction Hs as [|x t Hs IH Hall]; intros [|n]; simpl; try constructor.
  - apply IH.
  - rewrite Forall_forall in *. intros y Hy.
    apply Hall. eapply firstn_In, Hy.
Qed.

Lemma StronglySorted_filter {A} (R : A -> A -> Prop) (p : A -> bool)
    (l : list A) :
  StronglySorted R l -> StronglySorted R (filter p l).
Proof.
  induction 1 as [|x t Hs IH Hall]; simpl; [constructor |].
  destruct (p x); [| exact IH].
  constructor; [exact IH |].
  rewrite Forall_forall in *. intros y Hy.
  apply Hall. apply filter_In in Hy. tauto.
Qed.

(** ** Scoring *)

Lemma addMatches_hits (w : Z) (queryTokens fieldTokens : list string)
    (score : Z) :
  addMatches w queryTokens fieldTokens score
  = score + w * Reference.hits queryTokens fieldTokens.
Proof.
  unfold addMatches, Reference.hits.
  revert score. induction fieldTokens as [|t rest IH]; intros score; simpl.
  - ring.
  - rewrite IH. destruct (JS.includes queryTokens t); [| reflexivity].
    change (List.length (t :: ?l)) with (S (List.length l)).
    rewrite Nat2Z.inj_succ. ring.
Qed.

Lemma hits_app (queryTokens xs ys : list string) :
  Reference.hits queryTokens (xs ++ ys)
  = Reference.hits queryTokens xs + Reference.hits queryTokens ys.
Proof.
  unfold Reference.hits. rewrite filter_app, length_app. lia.
Qed.

Lemma tags_hits (queryTokens : list string) (tags : list string) (score : Z) :
  fold_left
    (fun score tag => addMatches 3 queryTokens (normalizeQuery tag) score)
    tags score
  = score + 3 * Reference.hits queryTokens (flat_map normalizeQuery tags).
Proof.
  revert score.
  induction tags as [|tag rest IH]; intros score; cbn [fold_left flat_map].
  - change (Reference.hits queryTokens []) with 0. lia.
  - rewrite IH, addMatches_hits, hits_app. lia.
Qed.

Lemma normalizeQuery_empty : normalizeQuery "" = [].
Proof. reflexivity. Qed.

Lemma scoreArticle_sum (article : Article) (queryTokens : list string) :
  scoreArticle article queryTokens
  = 3 * Reference.hits queryTokens (Reference.tagTokens article)
    + 2 * Reference.hits queryTokens (Reference.productTokens article)
    + 1 * Reference.hits queryTokens (Reference.titleTokens article).
Proof.
  unfold scoreArticle, Reference.tagTokens, Reference.productTokens,
    Reference.titleTokens, truthyString.
  assert (H0 : forall q, Reference.hits q [] = 0) by reflexivity.
  destruct (art_tags article) as [tags|];
    destruct (art_product article) as [product|];
    destruct (art_title article) as [title|];
    repeat match goal with
      | |- context [String.eqb ?s ""] =>
          destruct (String.eqb_spec s ""); subst
      end;
    rewrite ?normalizeQuery_empty, ?addMatches_hits, ?tags_hits, ?H0;
    lia.
Qed.

Lemma hits_no_query (fieldTokens : list string) :
  Reference.hits [] fieldTokens = 0.
Proof.
  unfold Reference.hits. induction fieldTokens; simpl; auto.
Qed.

Lemma scoreArticle_no_query (article : Article) : scoreArticle article [] = 0.
Proof. rewrite scoreArticle_sum, !hits_no_query. reflexivity. Qed.

Lemma hits_nonneg (q f : list string) : 0 <= Reference.hits q f.
Proof. unfold Reference.hits. lia. Qed.

End RetrievalFacts.

Section RetrievalClaims.

Import Retrieval.

Lemma scoreAll_no_query (kb : list Article) :
  Forall (fun m => Reference.positive m = false) (scoreAll kb []).
Proof.
  unfold scoreAll, Reference.positive. apply Forall_forall. intros m Hm.
  apply in_map_iff in Hm as [a [<- _]]. simpl.
  rewrite scoreArticle_no_query. reflexivity.
Qed.

(** The match list in one expression, the early return included. *)
Lemma matches_unfold (kb : list Article) (query : string) (topN : Z) :
  matches (retrieveArticles kb query topN)
  = map toMatch
      (filter Reference.positive
         (JS.slice0
            (JS.sort byScoreDesc (scoreAll kb (normalizeQuery query)))
            topN)).
Proof.
  unfold retrieveArticles.
  destruct (normalizeQuery query) as [|t ts] eqn:Htok; simpl; [| reflexivity].
  destruct (slice0_is_firstn (JS.sort byScoreDesc (scoreAll kb [])) topN)
    as [n ->].
  rewrite filter_none; [reflexivity |].
  apply Forall_forall. intros m Hm. apply firstn_In in Hm.
  pose proof (scoreAll_no_query kb) as Hall.
  rewrite Forall_forall in Hall. apply Hall.
  eapply Permutation_in; [apply sort_perm | exact Hm].
Qed.

Lemma retrieveArticles_no_tokens (kb : list Article) (query : string)
    (topN : Z) :
  normalizeQuery query = [] ->
  retrieveArticles kb query topN = mkResult [] false None query.
Proof. unfold retrieveArticles. intros ->. reflexivity. Qed.

(** Claim C3.  The score of an article is three times the number of its
    tag tokens found among the query tokens, plus twice the number of its
    product-name tokens found there, plus the number of its title tokens
    found there; every occurrence of a token in a field counts.  An article
    with tags "email" and "smtp", product "Outlook" and title
    "Email Not Sending" scores 9 for the query "outlook email smtp". *)
Theorem scoreArticle_additive :
  (forall (article : Article) (queryTokens : list string),
      scoreArticle article queryTokens
      = 3 * Reference.hits queryTokens (Reference.tagTokens article)
        + 2 * Reference.hits queryTokens (Reference.productTokens article)
        + 1 * Reference.hits queryTokens (Reference.titleTokens article))
  /\
  (forall id summary steps fallbacks,
      scoreArticle
        (mkArticle id (Some "Email Not Sending") (Some ["email"; "smtp"])
           (Some "Outlook") summary steps fallbacks)
        (normalizeQuery "outlook email smtp")
      = 9).
Proof.
  split; [exact scoreArticle_sum |].
  intros id summary steps fallbacks. reflexivity.
Qed.

(** Claim C4, as the specification states it, fails: a query with tokens
    that matches no article gets an empty match list and a low-confidence
    flag that is set. *)
Lemma lowConfidence_set_without_matches :
  ~ (forall (kb : list Article) (query : string) (topN : Z),
        normalizeQuery query <> [] ->
        matches (retrieveArticles kb query topN) = [] ->
        lowConfidence (retrieveArticles kb query topN) = false).
Proof.
  intros H. specialize (H Sample.kb "xyz" 3).
  vm_compute in H.
  assert (Hf : true = false) by (apply H; [discriminate | reflexivity]).
  discriminate Hf.
Qed.

(** Claim C4, amended.  For a query with at least one token, the top
    score is the score of the first returned match, which is positive and
    the largest returned, or 0 when no match remains; the low-confidence
    flag is set exactly when that top score is below 9.  With no match
    remaining the list is empty and the flag is therefore set. *)
Theorem lowConfidence_threshold (kb : list Article) (query : string)
    (topN : Z) :
  normalizeQuery query <> [] ->
  let r := retrieveArticles kb query topN in
  match matches r with
  | top :: rest =>
      0 < m_score top
      /\ Forall (fun m => m_score m <= m_score top) rest
      /\ topScore r = Some (m_score top)
      /\ (lowConfidence r = true <-> m_score top < 9)
  | [] => topScore r = Some 0 /\ lowConfidence r = true
  end.
Proof.
  intros Htok. unfold retrieveArticles.
  destruct (normalizeQuery query) as [|t ts]; [congruence |].
  change (Z.of_nat (List.length (t :: ts)) =? 0) with false. cbv iota.
  set (ranked := JS.sort byScoreDesc (scoreAll kb (t :: ts))).
  assert (Hsorted : StronglySorted Reference.descending
                      (filter (fun m => 0 <? sc_score m)
                              (JS.slice0 ranked topN))).
  { destruct (slice0_is_firstn ranked topN) as [n ->].
    apply StronglySorted_filter, StronglySorted_firstn, sort_descending. }
  assert (Hpos : Forall (fun m => 0 < sc_score m)
                   (filter (fun m => 0 <? sc_score m)
                           (JS.slice0 ranked topN))).
  { apply Forall_forall. intros m Hm. apply filter_In in Hm as [_ Hm].
    apply Z.ltb_lt, Hm. }
  destruct (filter (fun m => 0 <? sc_score m) (JS.slice0 ranked topN))
    as [|top rest]; simpl.
  - split; reflexivity.
  - inversion Hsorted as [|? ? _ Hall]; subst.
    inversion Hpos as [|? ? Htop _]; subst.
    repeat split.
    + exact Htop.
    + apply Forall_map. eapply Forall_impl; [| exact Hall].
      intros m Hm. exact Hm.
    + intros H. apply Z.ltb_lt, H.
    + intros H. apply Z.ltb_lt, H.
Qed.

Lemma lowConfidence_threshold_witness :
  normalizeQuery "windows network wifi" <> []
  /\ match matches (retrieveArticles Sample.kb "windows network wifi" 2) with
     | top :: rest =>
         0 < m_score top
         /\ Forall (fun m => m_score m <= m_score top) rest
         /\ topScore (retrieveArticles Sample.kb "windows network wifi" 2)
            = Some (m_score top)
         /\ (lowConfidence
               (retrieveArticles Sample.kb "windows network wifi" 2) = true
             <-> m_score top < 9)
     | [] =>
         topScore (retrieveArticles Sample.kb "windows network wifi" 2)
         = Some 0
         /\ lowConfidence
              (retrieveArticles Sample.kb "windows network wifi" 2) = true
     end.
Proof.
  split; [vm_compute; discriminate |].
  apply (lowConfidence_threshold Sample.kb "windows network wifi" 2).
  vm_compute. discriminate.
Defined.

(** Claim C5.  The returned matches are the scored articles in
    descending order of score, articles of equal score in the order of the
    knowledge base, cut to the first [topN] and then stripped of every
    entry whose score is not positive; so every returned score is positive
    and at most [topN] entries come back, possibly fewer. *)
Theorem retrieveArticles_ranking (kb : list Article) (query : string)
    (topN : Z) :
  0 <= topN ->
  let scored := scoreAll kb (normalizeQuery query) in
  let ranked := JS.sort byScoreDesc scored in
  Permutation ranked scored
  /\ StronglySorted Reference.descending ranked
  /\ (forall v : Z,
         filter (fun m => sc_score m =? v) ranked
         = filter (fun m => sc_score m =? v) scored)
  /\ matches (retrieveArticles kb query topN)
     = map toMatch
         (filter Reference.positive (firstn (Z.to_nat topN) ranked))
  /\ Forall (fun m => 0 < m_score m) (matches (retrieveArticles kb query topN))
  /\ Z.of_nat (List.length (matches (retrieveArticles kb query topN))) <= topN.
Proof.
  intros HtopN scored ranked.
  assert (Hm : matches (retrieveArticles kb query topN)
               = map toMatch
                   (filter Reference.positive
                      (firstn (Z.to_nat topN) ranked))).
  { rewrite matches_unfold. fold scored. fold ranked.
    rewrite slice0_firstn by assumption. reflexivity. }
  split; [apply sort_perm |].
  split; [apply sort_descending |].
  split; [intros v; apply sort_stable |].
  split; [exact Hm |].
  rewrite Hm. split.
  - apply Forall_map, Forall_forall. intros m Hin.
    apply filter_In in Hin as [_ Hpos]. apply Z.ltb_lt, Hpos.
  - rewrite length_map.
    pose proof (filter_length_le Reference.positive
                  (firstn (Z.to_nat topN) ranked)) as Hle.
    pose proof (firstn_le_length (Z.to_nat topN) ranked) as Hfn.
    lia.
Qed.

Lemma retrieveArticles_ranking_witness :
  0 <= 2
  /\ map m_id (matches (retrieveArticles Sample.kb "windows network" 2))
     = [2; 3].
Proof.
  split; [lia |].
  destruct (retrieveArticles_ranking Sample.kb "windows network" 2)
    as (_ & _ & _ & Hm & _); [lia |].
  rewrite Hm. reflexivity.
Defined.

(** [normalizeQuery] and the reference normalization agree on every
    string of ASCII characters that has no underscore. *)
Lemma normalizeQuery_reference (s : string) :
  JS.allChars
    (fun c => ((JS.code c <? 128)%N && negb (JS.code c =? 95)%N)%bool) s
  = true ->
  normalizeQuery s = Reference.normalize s.
Proof.
  intros Hok. unfold normalizeQuery, Reference.normalize.
  assert (Hfilter : forall l,
             filter (fun token => 0 <? Z.of_nat (String.length token)) l
             = filter (fun token => negb (String.eqb token "")) l).
  { intros l. apply filter_ext. intros token. apply nonEmpty_length. }
  destruct (String.eqb s "" || JS.trimIsEmpty s)%bool eqn:Hearly.
  - assert (Hws : JS.allChars JS.isWhiteSpace s = true).
    { apply orb_true_iff in Hearly as [He | Hw]; [| exact Hw].
      apply String.eqb_eq in He. subst s. reflexivity. }
    unfold JS.toLowerCase.
    rewrite (mapChars_id_on _ _ s toLowerChar_whiteSpace Hws).
    rewrite (mapChars_id_on _ JS.isWhiteSpace s); [| | exact Hws].
    + symmetry. apply filter_none.
      eapply Forall_impl; [| apply splitLoop_whiteSpace, Hws].
      intros token <-. reflexivity.
    + intros c Hc. rewrite (keeps_whiteSpace c Hc). reflexivity.
  - rewrite Hfilter. do 2 f_equal.
    unfold JS.replaceNonWord, JS.toLowerCase.
    rewrite !mapChars_compose.
    eapply mapChars_ext_on; [| exact Hok].
    intros c Hc. cbv beta in Hc. apply andb_true_iff in Hc as [Hlt Hne].
    apply negb_true_iff in Hne.
    rewrite (keeps_agree c Hlt Hne). reflexivity.
Qed.

(** Claim C6.  [normalizeQuery] departs from the reference normalization
    on the underscore, which the pattern [\w] keeps although it is neither
    a letter nor a digit: "a_b" stays one token where the reference gives
    two. *)
Theorem normalizeQuery_keeps_underscore :
  normalizeQuery "a_b" = ["a_b"]
  /\ Reference.normalize "a_b" = ["a"; "b"]
  /\ normalizeQuery "a_b" <> Reference.normalize "a_b".
Proof.
  split; [reflexivity |].
  split; [reflexivity |].
  vm_compute. discriminate.
Qed.

End RetrievalClaims.

(** * Properties of the state machine *)

Section StepperFacts.

Import Stepper.

Lemma totalSteps_length (article : option Article) (s : State) :
  getTotalSteps article s = lengthZ (getStepsForActivePath article s).
Proof.
  unfold getTotalSteps, getStepsForActivePath.
  destruct article as [a|]; [| reflexivity].
  destruct (String.eqb (activePath s) "main").
  - destruct (art_steps a); reflexivity.
  - destruct (findFallback a (activePath s)) as [fb|]; [| reflexivity].
    destruct (fb_steps fb); reflexivity.
Qed.

(** The steps of the active path depend on the state through
    [activePath] alone. *)
Lemma steps_same_path (article : option Article) (s s' : State) :
  activePath s' = activePath s ->
  getStepsForActivePath article s' = getStepsForActivePath article s.
Proof.
  unfold getStepsForActivePath. intros ->. reflexivity.
Qed.

Lemma getCurrentStep_some (article : option Article) (s : State) (st : Step) :
  getCurrentStep article s = Some st ->
  0 <= currentStepIndex s < lengthZ (getStepsForActivePath article s)
  /\ nth_error (getStepsForActivePath article s)
               (Z.to_nat (currentStepIndex s)) = Some st.
Proof.
  unfold getCurrentStep, index.
  destruct article as [a|]; [| discriminate].
  destruct (lengthZ _ <=? currentStepIndex s) eqn:Hle; [discriminate |].
  destruct (currentStepIndex s <? 0) eqn:Hneg; [discriminate |].
  apply Z.leb_gt in Hle. apply Z.ltb_ge in Hneg.
  intros Hnth. split; [lia | exact Hnth].
Qed.

Lemma getCurrentStep_none (article : option Article) (s : State) :
  0 <= currentStepIndex s ->
  getCurrentStep article s = None ->
  lengthZ (getStepsForActivePath article s) <= currentStepIndex s.
Proof.
  unfold getCurrentStep, index. intros Hnn.
  destruct article as [a|]; [| simpl; intros _; exact Hnn].
  destruct (lengthZ _ <=? currentStepIndex s) eqn:Hle;
    [intros _; apply Z.leb_le, Hle |].
  destruct (currentStepIndex s <? 0) eqn:Hneg;
    [apply Z.ltb_lt in Hneg; lia |].
  apply Z.leb_gt in Hle. intros Hnth.
  apply nth_error_None in Hnth. unfold lengthZ in Hle. lia.
Qed.

Lemma getCurrentStep_past_end (article : option Article) (s : State) :
  lengthZ (getStepsForActivePath article s) <= currentStepIndex s ->
  getCurrentStep article s = None.
Proof.
  unfold getCurrentStep. intros Hle.
  destruct article as [a|]; [| reflexivity].
  apply Z.leb_le in Hle. rewrite Hle. reflexivity.
Qed.

Lemma continue_past_end (article : option Article) (s : State) :
  lengthZ (getStepsForActivePath article s) <= currentStepIndex s ->
  continue article s = (AlreadyDone, s).
Proof.
  intros Hle. unfold continue.
  rewrite (getCurrentStep_past_end article s Hle). reflexivity.
Qed.

(** What one effective [continue] does to the index and the path, and
    what it reports. *)
Lemma continue_advances (article : option Article) (s : State) :
  0 <= currentStepIndex s < lengthZ (getStepsForActivePath article s) ->
  let r := continue article s in
  activePath (snd r) = activePath s
  /\ currentStepIndex (snd r) = currentStepIndex s + 1
  /\ cr_completed (fst r)
     = (lengthZ (getStepsForActivePath article s) <=? currentStepIndex s + 1).
Proof.
  intros Hrange. unfold continue.
  destruct (getCurrentStep article s) as [st|] eqn:Hcur.
  - simpl. repeat split.
  - apply getCurrentStep_none in Hcur; lia.
Qed.

Lemma step_indexInRange (article : option Article) (s : State) (op : Op) :
  indexInRange article s -> indexInRange article (step article s op).
Proof.
  unfold indexInRange, lengthZ. intros Hin.
  destruct op as [| articleId now | | | stepId reason note now
                  | fallbackId now]; simpl.
  - lia.
  - lia.
  - unfold continue.
    destruct (getCurrentStep article s) as [st|] eqn:Hcur; [| exact Hin].
    apply getCurrentStep_some in Hcur as [Hlt _].
    unfold lengthZ in Hlt. simpl.
    rewrite (steps_same_path article s) by reflexivity. lia.
  - unfold back. destruct (0 <? currentStepIndex s) eqn:Hpos; [| exact Hin].
    apply Z.ltb_lt in Hpos. simpl.
    rewrite (steps_same_path article s) by reflexivity. lia.
  - rewrite (steps_same_path article s) by reflexivity. exact Hin.
  - lia.
Qed.

Lemma run_indexInRange (article : option Article) (ops : list Op) :
  forall s, indexInRange article s -> indexInRange article (run article s ops).
Proof.
  unfold run. induction ops as [|op rest IH]; intros s Hin; simpl.
  - exact Hin.
  - apply IH, step_indexInRange, Hin.
Qed.

End StepperFacts.

Section StepperClaims.

Import Stepper.

(** After [k] calls of [continue] on the main path of an article with
    steps [l], [k] at most their number, the index is [k]. *)
Lemma continueTimes_main (a : Article) (l : list Step) (s0 : State) (k : nat) :
  art_steps a = Some l ->
  activePath s0 = "main" -> currentStepIndex s0 = 0 ->
  (k <= List.length l)%nat ->
  activePath (continueTimes k (Some a) s0) = "main"
  /\ currentStepIndex (continueTimes k (Some a) s0) = Z.of_nat k.
Proof.
  intros Hsteps Hpath Hidx.
  induction k as [|k IH]; intros Hk; [split; assumption |].
  destruct IH as [IHp IHi]; [lia |].
  assert (Hl : getStepsForActivePath (Some a) (continueTimes k (Some a) s0)
               = l).
  { unfold getStepsForActivePath. rewrite IHp, Hsteps. reflexivity. }
  destruct (continue_advances (Some a) (continueTimes k (Some a) s0))
    as (Hp & Hi & _).
  { rewrite Hl, IHi. unfold lengthZ. lia. }
  simpl continueTimes. rewrite Hp, Hi, IHp, IHi. split; [reflexivity | lia].
Qed.

Lemma continueTimes_saturates (a : Article) (l : list Step) (s0 : State)
    (m : nat) :
  art_steps a = Some l ->
  activePath s0 = "main" -> currentStepIndex s0 = 0 ->
  (List.length l <= m)%nat ->
  continueTimes m (Some a) s0 = continueTimes (List.length l) (Some a) s0.
Proof.
  intros Hsteps Hpath Hidx Hm.
  induction Hm as [|m Hm IH]; [reflexivity |].
  simpl continueTimes. rewrite IH.
  destruct (continueTimes_main a l s0 (List.length l) Hsteps Hpath Hidx
              (le_n _)) as [Hp Hi].
  rewrite continue_past_end; [reflexivity |].
  unfold getStepsForActivePath. rewrite Hp, Hsteps, Hi.
  unfold lengthZ. simpl. lia.
Qed.

(** Claim C1.  After a fresh [startArticle] on an article with [n >= 1]
    steps, the first [n - 1] calls of [continue] report [completed = false]
    and leave [isComplete] false, the [n]-th reports [completed = true], and
    from then on [isComplete] holds and every further [continue] returns the
    bare [completed: true] and leaves the whole state, [completedStepIds]
    included, as it was. *)
Theorem continue_completes_on_last_step (a : Article) (l : list Step)
    (articleId : Z) (now : string) (prior : State) :
  art_steps a = Some l ->
  (1 <= List.length l)%nat ->
  let n := List.length l in
  let s0 := snd (startArticle articleId (Some a) now prior) in
  (forall k : nat, (k < n)%nat ->
      isComplete (Some a) (continueTimes k (Some a) s0) = false
      /\ cr_completed (fst (continue (Some a) (continueTimes k (Some a) s0)))
         = Nat.eqb (S k) n)
  /\ (forall m : nat, (n <= m)%nat ->
        let s := continueTimes m (Some a) s0 in
        isComplete (Some a) s = true
        /\ continue (Some a) s = (AlreadyDone, s)
        /\ completedStepIds (snd (continue (Some a) s)) = completedStepIds s).
Proof.
  intros Hsteps Hn n s0.
  assert (Hpath : activePath s0 = "main") by reflexivity.
  assert (Hidx : currentStepIndex s0 = 0) by reflexivity.
  split.
  - intros k Hk.
    destruct (continueTimes_main a l s0 k Hsteps Hpath Hidx) as [Hp Hi];
      [fold n; lia |].
    assert (Hl : getStepsForActivePath (Some a) (continueTimes k (Some a) s0)
                 = l).
    { unfold getStepsForActivePath. rewrite Hp, Hsteps. reflexivity. }
    split.
    + unfold isComplete. rewrite Hl, Hi. apply Z.leb_gt.
      unfold lengthZ. fold n. lia.
    + destruct (continue_advances (Some a) (continueTimes k (Some a) s0))
        as (_ & _ & Hc).
      { rewrite Hl, Hi. unfold lengthZ. fold n. lia. }
      rewrite Hc, Hl, Hi. unfold lengthZ. fold n.
      destruct (Nat.eqb_spec (S k) n) as [He | Hne].
      * apply Z.leb_le. lia.
      * apply Z.leb_gt. lia.
  - intros m Hm s. subst s.
    rewrite (continueTimes_saturates a l s0 m Hsteps Hpath Hidx Hm).
    destruct (continueTimes_main a l s0 (List.length l) Hsteps Hpath Hidx
                (le_n _)) as [Hp Hi].
    assert (Hend : lengthZ (getStepsForActivePath (Some a)
                              (continueTimes (List.length l) (Some a) s0))
                   <= currentStepIndex
                        (continueTimes (List.length l) (Some a) s0)).
    { unfold getStepsForActivePath. rewrite Hp, Hsteps, Hi.
      unfold lengthZ. simpl. lia. }
    split; [apply Z.leb_le, Hend |].
    rewrite (continue_past_end _ _ Hend). split; reflexivity.
Qed.

Lemma continue_completes_on_last_step_witness :
  art_steps Sample.emailArticle
  = Some [mkStep "s1" "Check the connection" None None;
          mkStep "s2" "Restart Outlook" None None]
  /\ map (fun k =>
            cr_completed
              (fst (continue (Some Sample.emailArticle)
                      (continueTimes k (Some Sample.emailArticle)
                         (snd (startArticle 1 (Some Sample.emailArticle)
                                 "2024-01-01T00:00:00.000Z" initialState))))))
         [0%nat; 1%nat; 2%nat]
     = [false; true; true]
  /\ isComplete (Some Sample.emailArticle)
       (continueTimes 2 (Some Sample.emailArticle)
          (snd (startArticle 1 (Some Sample.emailArticle)
                  "2024-01-01T00:00:00.000Z" initialState)))
     = true.
Proof.
  split; [reflexivity |].
  destruct (continue_completes_on_last_step Sample.emailArticle
              [mkStep "s1" "Check the connection" None None;
               mkStep "s2" "Restart Outlook" None None]
              1 "2024-01-01T00:00:00.000Z" initialState eq_refl)
    as [Hbefore Hafter]; [simpl; lia |].
  split; [reflexivity |].
  destruct (Hafter 2%nat) as [Hdone _]; [simpl; lia |].
  exact Hdone.
Defined.

(** Claim C7.  In every state reached from the initial one by calls of
    [reset], [startArticle], [continue], [back], [recordFailure] and
    [switchToFallback] on one article, [currentStepIndex] lies between 0 and
    the number of steps of the active path, and it equals that number
    exactly when [isComplete] holds. *)
Theorem currentStepIndex_within_path (article : option Article)
    (ops : list Op) :
  let s := run article initialState ops in
  let total := lengthZ (getStepsForActivePath article s) in
  0 <= currentStepIndex s <= total
  /\ (currentStepIndex s = total <-> isComplete article s = true).
Proof.
  intros s total.
  assert (Hin : indexInRange article s).
  { apply run_indexInRange. unfold indexInRange, lengthZ. simpl. lia. }
  unfold indexInRange in Hin. fold total in Hin.
  split; [exact Hin |].
  unfold isComplete. fold total. rewrite Z.leb_le. lia.
Qed.

(** Claim C8.  [back()] at index 0 fails with "Already at first step"
    and leaves the state alone; at a positive index it succeeds and lowers
    the index by exactly one, touching nothing else; an index that is not
    negative never becomes negative. *)
Theorem back_stops_at_first_step (s : State) :
  (currentStepIndex s = 0 ->
     back s = (BackFailed "Already at first step", s)
     /\ br_success (fst (back s)) = false)
  /\ (0 < currentStepIndex s ->
        back s
        = (BackOk (currentStepIndex s - 1),
           mkState (selectedArticleId s) (activePath s)
             (currentStepIndex s - 1) (completedStepIds s)
             (attemptedPaths s) (failureHistory s))
        /\ br_success (fst (back s)) = true)
  /\ (0 <= currentStepIndex s -> 0 <= currentStepIndex (snd (back s))).
Proof.
  unfold back. split; [| split].
  - intros Hzero. rewrite Hzero. split; reflexivity.
  - intros Hpos. apply Z.ltb_lt in Hpos. rewrite Hpos. split; reflexivity.
  - intros Hnn. destruct (0 <? currentStepIndex s) eqn:Hpos; simpl.
    + apply Z.ltb_lt in Hpos. lia.
    + exact Hnn.
Qed.

Lemma back_stops_at_first_step_witness :
  br_success (fst (back initialState)) = false
  /\ currentStepIndex (snd (back initialState)) = 0
  /\ back (mkState (Some 1) "main" 2 ["s1"; "s2"] [] [])
     = (BackOk 1, mkState (Some 1) "main" 1 ["s1"; "s2"] [] []).
Proof.
  destruct (back_stops_at_first_step initialState) as (Hzero & _ & _).
  destruct (Hzero eq_refl) as [Hback Hfail].
  destruct (back_stops_at_first_step
              (mkState (Some 1) "main" 2 ["s1"; "s2"] [] []))
    as (_ & Hpos & _).
  destruct (Hpos eq_refl) as [Hdec _].
  split; [exact Hfail |].
  split; [rewrite Hback; reflexivity | exact Hdec].
Defined.

Lemma step_failureHistory (article : option Article) (s : State) (op : Op) :
  isSessionStart op = false ->
  List.length (failureHistory (step article s op))
  = (List.length (failureHistory s)
     + (if isRecordFailure op then 1 else 0))%nat.
Proof.
  destruct op as [| articleId now | | | stepId reason note now
                  | fallbackId now]; simpl; try discriminate; intros _.
  - unfold continue. destruct (getCurrentStep article s); simpl; lia.
  - unfold back. destruct (0 <? currentStepIndex s); simpl; lia.
  - rewrite length_app. reflexivity.
  - lia.
Qed.

(** Claim C9.  [recordFailure] returns the record it was given, stamped
    with the current time, appends it to [failureHistory] and changes no
    other field of the state.  Over any sequence of calls within a session
    ([continue], [back], [switchToFallback] and [recordFailure] in any
    order), [failureHistory] grows by the number of [recordFailure] calls
    made: from a fresh state its length after [k] such calls is [k]. *)
Theorem recordFailure_append_only (article : option Article) (s : State)
    (ops : list Op) :
  forallb (fun op => negb (isSessionStart op)) ops = true ->
  (forall stepId reasonCategory note now : string,
      recordFailure stepId reasonCategory note now s
      = (mkFailure stepId reasonCategory note now,
         mkState (selectedArticleId s) (activePath s) (currentStepIndex s)
           (completedStepIds s) (attemptedPaths s)
           (failureHistory s
              ++ [mkFailure stepId reasonCategory note now])))
  /\ List.length (failureHistory (run article s ops))
     = (List.length (failureHistory s)
        + List.length (filter isRecordFailure ops))%nat.
Proof.
  intros Hops. split; [reflexivity |].
  unfold run. revert s Hops.
  induction ops as [|op rest IH]; intros s Hops; simpl.
  - lia.
  - simpl in Hops. apply andb_true_iff in Hops as [Hop Hrest].
    apply negb_true_iff in Hop.
    rewrite (IH _ Hrest), (step_failureHistory article s op Hop).
    destruct (isRecordFailure op); simpl; lia.
Qed.

Lemma recordFailure_append_only_witness :
  List.length
    (failureHistory
       (run (Some Sample.emailArticle)
          (snd (startArticle 1 (Some Sample.emailArticle) "t0" initialState))
          [OpContinue; OpRecordFailure "s2" "other" "x" "t1"; OpBack;
           OpSwitchToFallback "fb1" "t2";
           OpRecordFailure "f1" "other" "y" "t3"; OpContinue]))
  = 2%nat.
Proof.
  destruct (recordFailure_append_only (Some Sample.emailArticle)
              (snd (startArticle 1 (Some Sample.emailArticle) "t0"
                      initialState))
              [OpContinue; OpRecordFailure "s2" "other" "x" "t1"; OpBack;
               OpSwitchToFallback "fb1" "t2";
               OpRecordFailure "f1" "other" "y" "t3"; OpContinue]
              eq_refl) as [_ Hlen].
  rewrite Hlen. reflexivity.
Defined.

(** Claim C10, as stated, fails for the identifier "main": it names no
    fallback path, and after [switchToFallback("main", article)] the runner
    is on the main steps of the article. *)
Lemma switchToFallback_main_not_empty :
  ~ (forall (fallbackId : string) (a : Article) (now : string) (s : State),
        findFallback a fallbackId = None ->
        getTotalSteps (Some a)
          (snd (switchToFallback fallbackId (Some a) now s)) = 0).
Proof.
  intros H.
  specialize (H "main" Sample.emailArticle "t0" initialState eq_refl).
  vm_compute in H. discriminate H.
Qed.

(** Claim C10, amended.  When [fallbackId] is not "main" and no fallback
    path of the article has that identifier, [switchToFallback] still
    returns normally, reporting no steps and no current step, and the
    runner then behaves as on a path without steps: [getTotalSteps] is 0,
    [getCurrentStep] is null, [isComplete] holds, and [continue] is the
    no-op of a finished path. *)
Theorem switchToFallback_unknown_id (fallbackId : string) (a : Article)
    (now : string) (s : State) :
  fallbackId <> "main" ->
  findFallback a fallbackId = None ->
  let r := switchToFallback fallbackId (Some a) now s in
  fst r = mkStart 0 None
  /\ activePath (snd r) = fallbackId
  /\ getTotalSteps (Some a) (snd r) = 0
  /\ getCurrentStep (Some a) (snd r) = None
  /\ isComplete (Some a) (snd r) = true
  /\ continue (Some a) (snd r) = (AlreadyDone, snd r).
Proof.
  intros Hmain Hfind r.
  assert (Hsteps : getStepsForActivePath (Some a) (snd r) = []).
  { unfold getStepsForActivePath. simpl.
    apply String.eqb_neq in Hmain. rewrite Hmain, Hfind. reflexivity. }
  assert (Htotal : getTotalSteps (Some a) (snd r) = 0).
  { rewrite totalSteps_length, Hsteps. reflexivity. }
  assert (Hcur : getCurrentStep (Some a) (snd r) = None).
  { apply getCurrentStep_past_end. rewrite Hsteps. simpl. reflexivity. }
  split.
  { change (fst r) with (mkStart (getTotalSteps (Some a) (snd r))
                                 (getCurrentStep (Some a) (snd r))).
    rewrite Htotal, Hcur. reflexivity. }
  split; [reflexivity |].
  split; [exact Htotal |].
  split; [exact Hcur |].
  split.
  - unfold isComplete. rewrite Hsteps. reflexivity.
  - apply continue_past_end. rewrite Hsteps. simpl. reflexivity.
Qed.

Lemma switchToFallback_unknown_id_witness :
  "fb9" <> "main"
  /\ findFallback Sample.emailArticle "fb9" = None
  /\ isComplete (Some Sample.emailArticle)
       (snd (switchToFallback "fb9" (Some Sample.emailArticle) "t1"
               (snd (startArticle 1 (Some Sample.emailArticle) "t0"
                       initialState))))
     = true.
Proof.
  split; [discriminate |].
  split; [reflexivity |].
  destruct (switchToFallback_unknown_id "fb9" Sample.emailArticle "t1"
              (snd (startArticle 1 (Some Sample.emailArticle) "t0"
                      initialState)))
    as (_ & _ & _ & _ & Hdone & _);
    [discriminate | reflexivity | exact Hdone].
Defined.

(** Claim C2.  The method does not do what the claim, and the callers
    that hand it the completed step texts and read [skippedSteps] from its
    result, require.  Whatever was completed before, [switchToFallback]
    leaves the index at 0 and [completedStepIds] as it was, and returns the
    first step of the fallback path.  So when both main steps of the sample
    article are completed and the fallback "fb1" opens with a step of the
    same text as the second of them, the leading run to skip has length 1,
    yet the runner stands on that repeated step with nothing skipped. *)
Theorem switchToFallback_skips_no_step :
  (forall (fallbackId : string) (article : option Article) (now : string)
          (s : State),
      let r := switchToFallback fallbackId article now s in
      currentStepIndex (snd r) = 0
      /\ completedStepIds (snd r) = completedStepIds s
      /\ sr_currentStep (fst r)
         = hd_error (getStepsForActivePath article (snd r)))
  /\ (let article := Some Sample.emailArticle in
      let s := continueTimes 2 article
                 (snd (startArticle 1 article "t0" initialState)) in
      let completedTexts := ["Check the connection"; "Restart Outlook"] in
      let repeated := mkStep "f1" "Restart Outlook" None None in
      let fallbackSteps :=
        [repeated; mkStep "f2" "Recreate the profile" None None] in
      let r := switchToFallback "fb1" article "t1" s in
      completedStepIds s = ["s1"; "s2"]
      /\ getStepsForActivePath article (snd r) = fallbackSteps
      /\ Reference.leadingRun completedTexts fallbackSteps = 1%nat
      /\ currentStepIndex (snd r) = 0
      /\ completedStepIds (snd r) = ["s1"; "s2"]
      /\ fst r = mkStart 2 (Some repeated)).
Proof.
  split.
  - intros fallbackId article now s r.
    split; [reflexivity |]. split; [reflexivity |].
    unfold r, switchToFallback. cbv zeta. cbn [fst snd sr_currentStep].
    unfold getCurrentStep.
    destruct article as [a|]; [| reflexivity].
    cbn [currentStepIndex].
    destruct (getStepsForActivePath (Some a) _) as [|st rest]; reflexivity.
  - cbv zeta. repeat split.
Qed.

End StepperClaims.

(** * Further properties of the retrieval module *)

Section NormalizeFacts.

Import JS Retrieval.

(** The character [replace] leaves in the place of [c] after lower-casing. *)
Lemma replaced_char_class (c : ascii) :
  let r := toLowerChar c in
  let k := if (isWordChar r || isWhiteSpace r)%bool then r else " "%char in
  (Reference.isTokenChar k || isWhiteSpace k)%bool = true
  /\ isWhiteSpace k = negb (isWordChar c).
Proof.
  destruct c as [[] [] [] [] [] [] [] []]; vm_compute; split; reflexivity.
Qed.

Lemma tokenChar_fixed (c : ascii) :
  Reference.isTokenChar c = true ->
  toLowerChar c = c /\ isWordChar c = true /\ isWhiteSpace c = false.
Proof.
  destruct c as [[] [] [] [] [] [] [] []]; vm_compute;
    intros H; try discriminate H; repeat split.
Qed.

Lemma whiteSpace_lower (c : ascii) :
  isWhiteSpace (toLowerChar c) = isWhiteSpace c.
Proof.
  destruct c as [[] [] [] [] [] [] [] []]; vm_compute; reflexivity.
Qed.

Lemma toLowerChar_idempotent (c : ascii) :
  toLowerChar (toLowerChar c) = toLowerChar c.
Proof.
  destruct c as [[] [] [] [] [] [] [] []]; vm_compute; reflexivity.
Qed.

Lemma allChars_mapChars (p : ascii -> bool) (f : ascii -> ascii) (s : string) :
  allChars p (mapChars f s) = allChars (fun c => p (f c)) s.
Proof.
  induction s as [|c t IH]; simpl; [reflexivity | now rewrite IH].
Qed.

Lemma allChars_ext (p q : ascii -> bool) (s : string) :
  (forall c, p c = q c) -> allChars p s = allChars q s.
Proof.
  intros Hpq. induction s as [|c t IH]; simpl; [reflexivity |].
  now rewrite Hpq, IH.
Qed.

Lemma allChars_all (p : ascii -> bool) (s : string) :
  (forall c, p c = true) -> allChars p s = true.
Proof.
  intros Hp. induction s as [|c t IH]; simpl; [reflexivity |].
  now rewrite Hp, IH.
Qed.

Lemma allChars_append (p : ascii -> bool) (s t : string) :
  allChars p (s ++ t) = (allChars p s && allChars p t)%bool.
Proof.
  induction s as [|c s IH]; simpl; [reflexivity |].
  now rewrite IH, andb_assoc.
Qed.

Lemma append_cons (s : string) (c : ascii) (t : string) :
  ((s ++ String c EmptyString) ++ t)%string = (s ++ String c t)%string.
Proof.
  induction s as [|d s IH]; simpl; [reflexivity | now rewrite IH].
Qed.

Lemma prepared_chars (q : string) :
  allChars (fun c => (Reference.isTokenChar c || isWhiteSpace c)%bool)
    (Reference.prepared q) = true.
Proof.
  unfold Reference.prepared, replaceNonWord, toLowerCase.
  rewrite mapChars_compose, allChars_mapChars.
  apply allChars_all. intros c. apply (replaced_char_class c).
Qed.

Lemma prepared_whiteSpace (q : string) :
  allChars isWhiteSpace (Reference.prepared q)
  = allChars (fun c => negb (isWordChar c)) q.
Proof.
  unfold Reference.prepared, replaceNonWord, toLowerCase.
  rewrite mapChars_compose, allChars_mapChars.
  apply allChars_ext. intros c. apply (replaced_char_class c).
Qed.

(** ** The pieces of a split *)

Lemma splitLoop_chars (P : ascii -> bool) (s : string) :
  allChars (fun c => (P c || isWhiteSpace c)%bool) s = true ->
  (forall c, P c = true -> isWhiteSpace c = false) ->
  forall cur inSep,
    allChars P cur = true ->
    Forall (fun t => allChars P t = true) (splitLoop cur inSep s).
Proof.
  intros Hs HP. induction s as [|c t IH]; simpl; intros cur inSep Hcur.
  - constructor; [exact Hcur | constructor].
  - simpl in Hs. apply andb_true_iff in Hs as [Hc Ht].
    destruct (isWhiteSpace c) eqn:Hws.
    + destruct inSep; [apply IH; assumption |].
      constructor; [exact Hcur | apply IH; [assumption | reflexivity]].
    + rewrite orb_false_r in Hc. apply IH; [assumption |].
      rewrite allChars_append, Hcur. simpl. rewrite Hc. reflexivity.
Qed.

Lemma splitLoop_no_space (s : string) :
  allChars (fun c => negb (isWhiteSpace c)) s = true ->
  forall cur inSep, splitLoop cur inSep s = [(cur ++ s)%string].
Proof.
  induction s as [|c t IH]; simpl; intros Hs cur inSep.
  - f_equal. induction cur as [|d cur IHc]; simpl; [reflexivity |].
    now rewrite <- IHc.
  - apply andb_true_iff in Hs as [Hc Ht]. apply negb_true_iff in Hc.
    rewrite Hc, (IH Ht), append_cons. reflexivity.
Qed.

Lemma splitLoop_all_empty (s : string) :
  forall cur inSep,
    filter Reference.nonEmpty (splitLoop cur inSep s) = [] ->
    cur = EmptyString /\ allChars isWhiteSpace s = true.
Proof.
  assert (Hne : forall cur c, Reference.nonEmpty (cur ++ String c EmptyString) = true).
  { intros cur c. unfold Reference.nonEmpty. apply Z.ltb_lt.
    destruct cur; simpl; lia. }
  assert (Hempty : forall cur, Reference.nonEmpty cur = false -> cur = EmptyString).
  { intros [|d cur]; [reflexivity |]. unfold Reference.nonEmpty. simpl.
    intros H. apply Z.ltb_ge in H. lia. }
  induction s as [|c t IH]; simpl; intros cur inSep Hnone.
  - split; [| reflexivity].
    destruct (Reference.nonEmpty cur) eqn:Hcur; [discriminate | apply Hempty, Hcur].
  - destruct (isWhiteSpace c) eqn:Hws; simpl.
    + destruct inSep; [apply IH in Hnone; exact Hnone |].
      simpl in Hnone.
      destruct (Reference.nonEmpty cur) eqn:Hcur; [discriminate |].
      apply IH in Hnone as [_ Ht]. split; [apply Hempty, Hcur | exact Ht].
    + apply IH in Hnone as [Habs _]. exfalso.
      destruct cur; discriminate Habs.
Qed.

(** [normalizeQuery] without its early return. *)
Lemma normalizeQuery_unguarded (q : string) :
  normalizeQuery q = filter Reference.nonEmpty (splitWhiteSpace (Reference.prepared q)).
Proof.
  unfold normalizeQuery.
  destruct (String.eqb q "" || trimIsEmpty q)%bool eqn:Hearly;
    [| reflexivity].
  assert (Hws : allChars isWhiteSpace q = true).
  { apply orb_true_iff in Hearly as [He | Hw]; [| exact Hw].
    apply String.eqb_eq in He. subst q. reflexivity. }
  assert (Hprep : allChars isWhiteSpace (Reference.prepared q) = true).
  { rewrite prepared_whiteSpace.
    clear Hearly. induction q as [|c t IH]; simpl; [reflexivity |].
    simpl in Hws. apply andb_true_iff in Hws as [Hc Ht].
    rewrite (IH Ht), andb_true_r.
    revert Hc. clear.
    destruct c as [[] [] [] [] [] [] [] []]; vm_compute; congruence. }
  symmetry. apply filter_none.
  eapply Forall_impl; [| apply splitLoop_whiteSpace, Hprep].
  intros token <-. reflexivity.
Qed.

End NormalizeFacts.

Section NormalizeExtras.

Import JS Retrieval.

Lemma split_pieces_shape (q : string) :
  Forall (fun piece => allChars Reference.isTokenChar piece = true)
         (splitWhiteSpace (Reference.prepared q)).
Proof.
  apply (splitLoop_chars Reference.isTokenChar (Reference.prepared q)
           (prepared_chars q)
           (fun c Hc => proj2 (proj2 (tokenChar_fixed c Hc)))
           EmptyString false eq_refl).
Qed.

(** Extra X1.  Every token [normalizeQuery] returns is non-empty and made
    of lower-case ASCII letters, digits and underscores only: no upper-case
    letter, no white space and no punctuation survives. *)
Theorem normalizeQuery_token_shape (q : string) :
  Forall (fun token =>
            token <> EmptyString
            /\ allChars Reference.isTokenChar token = true)
         (normalizeQuery q).
Proof.
  rewrite normalizeQuery_unguarded. apply Forall_forall. intros token Hin.
  apply filter_In in Hin as [Hin Hne]. split.
  - intros ->. discriminate Hne.
  - pose proof (split_pieces_shape q) as Hall.
    rewrite Forall_forall in Hall. apply Hall, Hin.
Qed.

Lemma token_normalizes_to_itself (token : string) :
  token <> EmptyString ->
  allChars Reference.isTokenChar token = true ->
  normalizeQuery token = [token].
Proof.
  intros Hne Hall. rewrite normalizeQuery_unguarded.
  assert (Hprep : Reference.prepared token = token).
  { unfold Reference.prepared, replaceNonWord, toLowerCase.
    rewrite mapChars_compose.
    apply (mapChars_id_on _ Reference.isTokenChar); [| exact Hall].
    intros c Hc. destruct (tokenChar_fixed c Hc) as (Hl & Hw & _).
    rewrite Hl, Hw. reflexivity. }
  rewrite Hprep. unfold splitWhiteSpace.
  rewrite splitLoop_no_space.
  - simpl. destruct token as [|c t]; [congruence |].
    unfold Reference.nonEmpty. simpl String.length.
    replace (0 <? Z.of_nat (S (String.length t))) with true; [reflexivity |].
    symmetry. apply Z.ltb_lt. lia.
  - clear Hne Hprep.
    induction token as [|c t IH]; simpl; [reflexivity |].
    simpl in Hall. apply andb_true_iff in Hall as [Hc Ht].
    destruct (tokenChar_fixed c Hc) as (_ & _ & Hws).
    rewrite Hws. simpl. apply IH, Ht.
Qed.

(** Extra X2.  Normalization is idempotent on its own output: a token
    produced by [normalizeQuery] normalizes to exactly itself. *)
Theorem normalizeQuery_idempotent (q token : string) :
  In token (normalizeQuery q) -> normalizeQuery token = [token].
Proof.
  rewrite normalizeQuery_unguarded. intros Hin.
  apply filter_In in Hin as [Hin Hne].
  pose proof (split_pieces_shape q) as Hall.
  rewrite Forall_forall in Hall.
  apply token_normalizes_to_itself; [| apply Hall, Hin].
  intros ->. discriminate Hne.
Qed.

Lemma normalizeQuery_idempotent_witness :
  In "world" (normalizeQuery "Hello, World!")
  /\ normalizeQuery "world" = ["world"].
Proof.
  split; [vm_compute; tauto |].
  apply (normalizeQuery_idempotent "Hello, World!" "world").
  vm_compute. tauto.
Defined.

Lemma lowered_whiteSpace (q : string) :
  allChars isWhiteSpace (toLowerCase q) = allChars isWhiteSpace q.
Proof.
  unfold toLowerCase. rewrite allChars_mapChars.
  apply allChars_ext, whiteSpace_lower.
Qed.

(** Extra X3.  Normalization ignores letter case: two queries with the
    same lower-casing get the same tokens, and lower-casing a query beforehand
    changes nothing. *)
Theorem normalizeQuery_case_insensitive (q1 q2 : string) :
  toLowerCase q1 = toLowerCase q2 ->
  normalizeQuery q1 = normalizeQuery q2
  /\ normalizeQuery (toLowerCase q1) = normalizeQuery q1.
Proof.
  intros Hlow. split.
  - rewrite !normalizeQuery_unguarded. unfold Reference.prepared.
    rewrite Hlow. reflexivity.
  - rewrite !normalizeQuery_unguarded. unfold Reference.prepared.
    f_equal. f_equal. f_equal. unfold toLowerCase.
    rewrite mapChars_compose.
    apply (mapChars_ext_on _ _ (fun _ => true)).
    + intros c _. apply toLowerChar_idempotent.
    + apply allChars_all. reflexivity.
Qed.

Lemma normalizeQuery_case_insensitive_witness :
  toLowerCase "OutLook EMAIL" = toLowerCase "outlook Email"
  /\ normalizeQuery "OutLook EMAIL" = normalizeQuery "outlook Email".
Proof.
  split; [reflexivity |].
  apply (normalizeQuery_case_insensitive "OutLook EMAIL" "outlook Email").
  reflexivity.
Defined.

(** Extra X4.  For a query whose code units all lie below U+0100 (the
    strings of this development), [normalizeQuery] returns no token exactly
    when the query has no character of [[A-Za-z0-9_]]; the empty and the
    all-blank query of the early return are two such cases, a query of
    punctuation is another.  Above that range the statement does not carry
    over: lower-casing can turn a character that is no word character, such
    as the Kelvin sign, into an ASCII letter. *)
Theorem normalizeQuery_empty_iff (q : string) :
  normalizeQuery q = []
  <-> allChars (fun c => negb (isWordChar c)) q = true.
Proof.
  rewrite normalizeQuery_unguarded, <- prepared_whiteSpace. split.
  - intros Hnone. apply splitLoop_all_empty in Hnone. tauto.
  - intros Hws. apply filter_none.
    eapply Forall_impl; [| apply splitLoop_whiteSpace, Hws].
    intros token <-. reflexivity.
Qed.

End NormalizeExtras.

Section ScoringExtras.

Import Retrieval.

Lemma includes_In (arr : list string) (x : string) :
  JS.includes arr x = true <-> In x arr.
Proof.
  unfold JS.includes. rewrite existsb_exists. split.
  - intros [y [Hy He]]. apply String.eqb_eq in He. subst y. exact Hy.
  - intros Hx. exists x. split; [exact Hx | apply String.eqb_refl].
Qed.

Lemma hits_monotone (q q' fieldTokens : list string) :
  (forall t, In t q -> In t q') ->
  Reference.hits q fieldTokens <= Reference.hits q' fieldTokens.
Proof.
  intros Hsub. unfold Reference.hits.
  induction fieldTokens as [|t rest IH]; simpl; [lia |].
  destruct (JS.includes q t) eqn:Hq.
  - apply includes_In, Hsub, includes_In in Hq. rewrite Hq.
    simpl List.length. lia.
  - destruct (JS.includes q' t); simpl List.length; lia.
Qed.

Lemma hits_le_length (q fieldTokens : list string) :
  Reference.hits q fieldTokens <= Z.of_nat (List.length fieldTokens).
Proof.
  unfold Reference.hits.
  pose proof (filter_length_le (JS.includes q) fieldTokens). lia.
Qed.

Lemma hits_zero (q fieldTokens : list string) :
  Reference.hits q fieldTokens = 0
  <-> (forall t, In t fieldTokens -> ~ In t q).
Proof.
  unfold Reference.hits. induction fieldTokens as [|t rest IH]; simpl.
  - split; [intros _ t [] | reflexivity].
  - destruct (JS.includes q t) eqn:Hq.
    + split.
      * simpl List.length. lia.
      * intros Hnone. exfalso. apply (Hnone t); [left; reflexivity |].
        apply includes_In, Hq.
    + rewrite IH. split.
      * intros Hrest u [<- | Hu]; [| apply Hrest, Hu].
        intros Hin. apply includes_In in Hin. congruence.
      * intros Hall u Hu. apply Hall. right. exact Hu.
Qed.

(** Extra X5.  An article's score never drops when query tokens are
    added, and it depends on the query tokens only as a set: reordering or
    repeating them changes nothing. *)
Theorem scoreArticle_monotone (a : Article) (q q' : list string) :
  (forall t, In t q -> In t q') ->
  scoreArticle a q <= scoreArticle a q'
  /\ ((forall t, In t q' -> In t q) -> scoreArticle a q = scoreArticle a q').
Proof.
  intros Hsub. rewrite !scoreArticle_sum.
  pose proof (hits_monotone q q' (Reference.tagTokens a) Hsub).
  pose proof (hits_monotone q q' (Reference.productTokens a) Hsub).
  pose proof (hits_monotone q q' (Reference.titleTokens a) Hsub).
  split; [lia |].
  intros Hsup.
  pose proof (hits_monotone q' q (Reference.tagTokens a) Hsup).
  pose proof (hits_monotone q' q (Reference.productTokens a) Hsup).
  pose proof (hits_monotone q' q (Reference.titleTokens a) Hsup).
  lia.
Qed.

Lemma scoreArticle_monotone_witness :
  scoreArticle Sample.emailArticle ["email"]
  <= scoreArticle Sample.emailArticle ["smtp"; "email"; "email"].
Proof.
  apply (scoreArticle_monotone Sample.emailArticle
           ["email"] ["smtp"; "email"; "email"]).
  intros t [<- | []]. right. left. reflexivity.
Defined.

Lemma score_nonneg (a : Article) (q : list string) :
  0 <= scoreArticle a q.
Proof.
  rewrite scoreArticle_sum.
  pose proof (hits_nonneg q (Reference.tagTokens a)).
  pose proof (hits_nonneg q (Reference.productTokens a)).
  pose proof (hits_nonneg q (Reference.titleTokens a)).
  lia.
Qed.

Lemma score_zero_when_disjoint (a : Article) (q : list string) :
  (forall t,
      In t (Reference.tagTokens a ++ Reference.productTokens a
            ++ Reference.titleTokens a)%list ->
      ~ In t q) ->
  scoreArticle a q = 0.
Proof.
  intros Hnone. rewrite scoreArticle_sum.
  rewrite (proj2 (hits_zero q (Reference.tagTokens a))),
          (proj2 (hits_zero q (Reference.productTokens a))),
          (proj2 (hits_zero q (Reference.titleTokens a)));
    [reflexivity | | |];
    intros t Hin; apply Hnone; rewrite !in_app_iff; tauto.
Qed.


(** Extra X6.  A score lies between 0 and the weighted number of tokens
    of the article's tags, product and title, and it is 0 exactly when none
    of those tokens occurs in the query. *)
Theorem scoreArticle_bounds (a : Article) (q : list string) :
  0 <= scoreArticle a q
       <= 3 * Z.of_nat (List.length (Reference.tagTokens a))
          + 2 * Z.of_nat (List.length (Reference.productTokens a))
          + Z.of_nat (List.length (Reference.titleTokens a))
  /\ (scoreArticle a q = 0
      <-> (forall t,
              In t (Reference.tagTokens a ++ Reference.productTokens a
                    ++ Reference.titleTokens a)%list ->
              ~ In t q)).
Proof.
  rewrite scoreArticle_sum.
  pose proof (hits_nonneg q (Reference.tagTokens a)).
  pose proof (hits_nonneg q (Reference.productTokens a)).
  pose proof (hits_nonneg q (Reference.titleTokens a)).
  pose proof (hits_le_length q (Reference.tagTokens a)).
  pose proof (hits_le_length q (Reference.productTokens a)).
  pose proof (hits_le_length q (Reference.titleTokens a)).
  split; [lia |]. split.
  - intros Hzero t Hin.
    apply in_app_or in Hin as [Hin | Hin];
      [| apply in_app_or in Hin as [Hin | Hin]];
      revert t Hin; apply hits_zero; lia.
  - intros Hnone.
    assert (Ht : Reference.hits q (Reference.tagTokens a) = 0).
    { apply hits_zero. intros t Hin. apply Hnone, in_or_app. tauto. }
    assert (Hp : Reference.hits q (Reference.productTokens a) = 0).
    { apply hits_zero. intros t Hin. apply Hnone, in_or_app. right.
      apply in_or_app. tauto. }
    assert (Hi : Reference.hits q (Reference.titleTokens a) = 0).
    { apply hits_zero. intros t Hin. apply Hnone, in_or_app. right.
      apply in_or_app. tauto. }
    lia.
Qed.

End ScoringExtras.

Section RankingExtras.

Import Retrieval.

Lemma ranked_In (kb : list Article) (tokens : list string) (sc : Scored) :
  In sc (JS.sort byScoreDesc (scoreAll kb tokens)) ->
  In (sc_article sc) kb
  /\ sc = mkScored (sc_article sc) (scoreArticle (sc_article sc) tokens).
Proof.
  intros Hin.
  apply (Permutation_in _ (sort_perm byScoreDesc (scoreAll kb tokens))) in Hin.
  unfold scoreAll in Hin. apply in_map_iff in Hin as [a [<- Ha]].
  split; [exact Ha | reflexivity].
Qed.

Lemma In_ranked (kb : list Article) (tokens : list string) (a : Article) :
  In a kb ->
  In (mkScored a (scoreArticle a tokens))
     (JS.sort byScoreDesc (scoreAll kb tokens)).
Proof.
  intros Ha.
  apply (Permutation_in _
           (Permutation_sym (sort_perm byScoreDesc (scoreAll kb tokens)))).
  unfold scoreAll. apply in_map_iff. exists a. split; [reflexivity | exact Ha].
Qed.

Lemma match_scored (kb : list Article) (query : string) (topN : Z)
    (m : Match) :
  In m (matches (retrieveArticles kb query topN)) ->
  In (m_article m) kb
  /\ m = toMatch (mkScored (m_article m)
                    (scoreArticle (m_article m) (normalizeQuery query)))
  /\ 0 < m_score m.
Proof.
  rewrite matches_unfold. intros Hin.
  apply in_map_iff in Hin as [sc [<- Hsc]].
  apply filter_In in Hsc as [Hsc Hpos].
  destruct (slice0_is_firstn
              (JS.sort byScoreDesc (scoreAll kb (normalizeQuery query))) topN)
    as [n Hn].
  rewrite Hn in Hsc. apply firstn_In, ranked_In in Hsc as [Hkb Heq].
  unfold Reference.positive in Hpos. apply Z.ltb_lt in Hpos.
  simpl m_article. split; [exact Hkb |].
  split; [rewrite <- Heq; reflexivity | exact Hpos].
Qed.

(** Extra X7.  Every returned match is an article of the knowledge base
    together with its own score for the query, which is positive; its [id],
    [title], [summary] and [product] are those of that article.  A field of
    the article therefore shares a token with the query. *)
Theorem matches_come_from_kb (kb : list Article) (query : string) (topN : Z)
    (m : Match) :
  In m (matches (retrieveArticles kb query topN)) ->
  In (m_article m) kb
  /\ m = toMatch (mkScored (m_article m)
                    (scoreArticle (m_article m) (normalizeQuery query)))
  /\ 0 < m_score m
  /\ exists token,
       In token (normalizeQuery query)
       /\ In token (Reference.tagTokens (m_article m)
                    ++ Reference.productTokens (m_article m)
                    ++ Reference.titleTokens (m_article m))%list.
Proof.
  intros Hin.
  destruct (match_scored kb query topN m Hin) as (Hkb & Heq & Hpos).
  split; [exact Hkb |]. split; [exact Heq |]. split; [exact Hpos |].
  assert (Hscore : 0 < scoreArticle (m_article m) (normalizeQuery query))
    by (rewrite Heq in Hpos; exact Hpos).
  pose proof (score_zero_when_disjoint (m_article m) (normalizeQuery query))
    as Hzero.
  set (fields := (Reference.tagTokens (m_article m)
                  ++ Reference.productTokens (m_article m)
                  ++ Reference.titleTokens (m_article m))%list) in *.
  assert (Hex : ~ (forall t, In t fields -> ~ In t (normalizeQuery query))).
  { intros Hnone. apply Hzero in Hnone. lia. }
  clear Hzero. induction fields as [|t rest IH].
  - exfalso. apply Hex. intros t [].
  - destruct (in_dec string_dec t (normalizeQuery query)) as [Hq | Hq].
    + exists t. split; [exact Hq | left; reflexivity].
    + destruct IH as [u [Hu Hf]].
      * intros Hnone. apply Hex. intros u [<- | Hu]; [exact Hq |].
        apply Hnone, Hu.
      * exists u. split; [exact Hu | right; exact Hf].
Qed.

Lemma matches_come_from_kb_witness :
  In (toMatch (mkScored Sample.printerArticle 4))
     (matches (retrieveArticles Sample.kb "printer" 3))
  /\ In Sample.printerArticle Sample.kb.
Proof.
  split; [vm_compute; tauto |].
  destruct (matches_come_from_kb Sample.kb "printer" 3
              (toMatch (mkScored Sample.printerArticle 4)))
    as [Hkb _]; [vm_compute; tauto | exact Hkb].
Defined.

Lemma filter_firstn_descending (n : nat) (l : list Scored) :
  StronglySorted Reference.descending l ->
  filter Reference.positive (firstn n l)
  = firstn n (filter Reference.positive l).
Proof.
  intros Hs. revert n.
  induction Hs as [|x t Hs IH Hall]; intros n.
  - rewrite !firstn_nil. reflexivity.
  - destruct n as [|n]; [reflexivity |].
    simpl. destruct (Reference.positive x) eqn:Hx.
    + simpl. rewrite IH. reflexivity.
    + assert (Hnone : Forall (fun y => Reference.positive y = false) t).
      { eapply Forall_impl; [| exact Hall].
        unfold Reference.descending, Reference.positive in *.
        intros y Hy. apply Z.ltb_ge in Hx. apply Z.ltb_ge. lia. }
      rewrite (filter_none _ t Hnone). simpl.
      apply filter_none, Forall_forall. intros y Hy.
      rewrite Forall_forall in Hnone. apply Hnone.
      eapply firstn_In, Hy.
Qed.

Lemma filter_length_perm {A} (p : A -> bool) (l l' : list A) :
  Permutation l l' ->
  List.length (filter p l) = List.length (filter p l').
Proof.
  induction 1 as [| x l l' _ IH | x y l | l l' l'' _ IH1 _ IH2]; simpl.
  - reflexivity.
  - destruct (p x); simpl; now rewrite IH.
  - destruct (p x), (p y); reflexivity.
  - now rewrite IH1.
Qed.

(** Extra X8.  Filtering after the cut loses nothing: the matches are the
    first [topN] of the positively scored articles in rank order, so their
    number is the smaller of [topN] and the number of articles with a positive
    score. *)
Theorem matches_count (kb : list Article) (query : string) (topN : Z) :
  0 <= topN ->
  let tokens := normalizeQuery query in
  let ranked := JS.sort byScoreDesc (scoreAll kb tokens) in
  matches (retrieveArticles kb query topN)
  = map toMatch (firstn (Z.to_nat topN) (filter Reference.positive ranked))
  /\ Z.of_nat (List.length (matches (retrieveArticles kb query topN)))
     = Z.min topN
         (Z.of_nat
            (List.length
               (filter (fun a => 0 <? scoreArticle a tokens) kb))).
Proof.
  intros HtopN tokens ranked.
  assert (Hm : matches (retrieveArticles kb query topN)
               = map toMatch
                   (firstn (Z.to_nat topN)
                      (filter Reference.positive ranked))).
  { rewrite matches_unfold, slice0_firstn by assumption.
    fold tokens. fold ranked.
    rewrite filter_firstn_descending by apply sort_descending.
    reflexivity. }
  split; [exact Hm |].
  rewrite Hm, length_map, length_firstn.
  rewrite (filter_length_perm Reference.positive ranked (scoreAll kb tokens))
    by apply sort_perm.
  assert (Hcount : List.length (filter Reference.positive (scoreAll kb tokens))
                   = List.length
                       (filter (fun a => 0 <? scoreArticle a tokens) kb)).
  { unfold scoreAll. clear. induction kb as [|a rest IH]; [reflexivity |].
    simpl. unfold Reference.positive at 1. simpl sc_score.
    destruct (0 <? scoreArticle a tokens); simpl; now rewrite IH. }
  rewrite Hcount. lia.
Qed.

Lemma matches_count_witness :
  0 <= 2
  /\ Z.of_nat
       (List.length (matches (retrieveArticles Sample.kb "network" 2)))
     = 2
  /\ Z.of_nat
       (List.length (matches (retrieveArticles Sample.kb "wifi printer" 5)))
     = 2.
Proof.
  split; [lia |].
  destruct (matches_count Sample.kb "network" 2) as [_ H2]; [lia |].
  destruct (matches_count Sample.kb "wifi printer" 5) as [_ H5]; [lia |].
  split; [rewrite H2 | rewrite H5]; reflexivity.
Defined.

Lemma filter_head_find {A B} (f : A -> B) (p : B -> bool) (l : list A)
    (y : B) (rest : list B) :
  filter p (map f l) = y :: rest ->
  exists a, find (fun x => p (f x)) l = Some a /\ f a = y.
Proof.
  induction l as [|x t IH]; simpl; [discriminate |].
  destruct (p (f x)) eqn:Hx.
  - intros Heq. injection Heq as Hy _. exists x. split; [reflexivity | exact Hy].
  - exact IH.
Qed.

(** Extra X9.  [findBestMatch] returns an article of the knowledge base
    whose score is positive and the highest of all, and among the articles of
    that score the one that comes first in the knowledge base; it returns
    null exactly when every article scores 0. *)
Theorem findBestMatch_highest (kb : list Article) (query : string) :
  let tokens := normalizeQuery query in
  match findBestMatch kb query with
  | Some a =>
      In a kb
      /\ 0 < scoreArticle a tokens
      /\ (forall b, In b kb -> scoreArticle b tokens <= scoreArticle a tokens)
      /\ find (fun b => scoreArticle b tokens =? scoreArticle a tokens) kb
         = Some a
  | None => forall b, In b kb -> scoreArticle b tokens = 0
  end.
Proof.
  intros tokens. unfold findBestMatch.
  rewrite matches_unfold, slice0_firstn by lia. fold tokens.
  pose proof (sort_descending (scoreAll kb tokens)) as Hsorted.
  pose proof (sort_stable) as Hstable.
  pose proof (In_ranked kb tokens) as Hin.
  pose proof (ranked_In kb tokens) as Hfrom.
  destruct (JS.sort byScoreDesc (scoreAll kb tokens)) as [|x rest] eqn:Hr.
  - simpl. intros b Hb. destruct (Hin b Hb).
  - change (firstn (Z.to_nat 1) (x :: rest)) with [x].
    assert (Hmax : forall b, In b kb -> scoreArticle b tokens <= sc_score x).
    { intros b Hb. destruct (Hin b Hb) as [-> | Hrest]; [simpl; lia |].
      inversion Hsorted as [|? ? _ Hall]; subst.
      rewrite Forall_forall in Hall. apply (Hall _ Hrest). }
    simpl filter. destruct (Reference.positive x) eqn:Hpos; simpl.
    + destruct (Hfrom x (or_introl eq_refl)) as [Hkb Hx].
      unfold Reference.positive in Hpos. apply Z.ltb_lt in Hpos.
      assert (Hsc : sc_score x = scoreArticle (sc_article x) tokens)
        by (rewrite Hx at 1; reflexivity).
      rewrite <- Hsc.
      split; [exact Hkb |]. split; [exact Hpos |]. split; [exact Hmax |].
      specialize (Hstable (sc_score x) (scoreAll kb tokens)).
      rewrite Hr in Hstable. simpl in Hstable.
      rewrite Z.eqb_refl in Hstable. symmetry in Hstable.
      unfold scoreAll in Hstable.
      apply filter_head_find in Hstable as [a [Hfind Ha]].
      simpl in Hfind. rewrite Hfind. rewrite <- Ha. reflexivity.
    + intros b Hb. specialize (Hmax b Hb).
      unfold Reference.positive in Hpos. apply Z.ltb_ge in Hpos.
      pose proof (score_nonneg b tokens) as Hnn. lia.
Qed.

Lemma find_unique_id (kb : list Article) (a : Article) :
  NoDup (map art_id kb) -> In a kb ->
  getArticleById kb (art_id a) = Some a.
Proof.
  unfold getArticleById.
  induction kb as [|x t IH]; simpl; intros Hnd Hin; [destruct Hin |].
  inversion Hnd as [|? ? Hx Ht]; subst.
  destruct Hin as [-> | Hin]; [rewrite Z.eqb_refl; reflexivity |].
  destruct (art_id x =? art_id a) eqn:He; [| apply IH; assumption].
  apply Z.eqb_eq in He. exfalso. apply Hx. rewrite He.
  apply in_map, Hin.
Qed.

(** Extra X10.  With article identifiers that are unique in the knowledge
    base, [getArticleById] finds every article by its own identifier, and
    looking up the [id] of a returned match gives back the match's article.
    With or without uniqueness the lookup is null exactly for an identifier
    that no article carries. *)
Theorem getArticleById_lookup (kb : list Article) :
  (forall id, getArticleById kb id = None <-> ~ In id (map art_id kb))
  /\ (NoDup (map art_id kb) ->
      (forall a, In a kb -> getArticleById kb (art_id a) = Some a)
      /\ (forall query topN m,
             In m (matches (retrieveArticles kb query topN)) ->
             getArticleById kb (m_id m) = Some (m_article m))).
Proof.
  split.
  - intros id. unfold getArticleById. split.
    + intros Hnone Hin. apply in_map_iff in Hin as [a [Ha Hin]].
      pose proof (find_none _ _ Hnone a Hin) as Hne. simpl in Hne.
      apply Z.eqb_neq in Hne. congruence.
    + intros Hnot. destruct (find _ kb) as [a|] eqn:Hf; [| reflexivity].
      apply find_some in Hf as [Hin He]. apply Z.eqb_eq in He.
      exfalso. apply Hnot. rewrite <- He. apply in_map, Hin.
  - intros Hnd. split; [intros a; apply find_unique_id, Hnd |].
    intros query topN m Hm.
    destruct (match_scored kb query topN m Hm) as (Hkb & Heq & _).
    replace (m_id m) with (art_id (m_article m))
      by (rewrite Heq at 2; reflexivity).
    apply find_unique_id; assumption.
Qed.

Lemma getArticleById_lookup_witness :
  NoDup (map art_id Sample.kb)
  /\ getArticleById Sample.kb 2 = Some Sample.wifiArticle.
Proof.
  assert (Hnd : NoDup (map art_id Sample.kb)).
  { simpl. repeat constructor; simpl; intuition discriminate. }
  split; [exact Hnd |].
  destruct (getArticleById_lookup Sample.kb) as [_ Hfound].
  destruct (Hfound Hnd) as [Hself _].
  apply (Hself Sample.wifiArticle). simpl. tauto.
Defined.

(** Extra X11.  When a search comes back with matches and without the
    low-confidence flag, the top match carries the badge "score-high"; and no
    returned match carries "score-low" unless its score is 1 or 2. *)
Theorem top_match_badge (kb : list Article) (query : string) (topN : Z)
    (top : Match) (rest : list Match) :
  matches (retrieveArticles kb query topN) = top :: rest ->
  (lowConfidence (retrieveArticles kb query topN) = false ->
   SearchPanel.getScoreBadgeClass (m_score top) = "score-high")
  /\ (forall m, In m (top :: rest) ->
        SearchPanel.getScoreBadgeClass (m_score m) = "score-low" ->
        1 <= m_score m <= 2).
Proof.
  intros Hm. split.
  - revert Hm. unfold retrieveArticles.
    destruct (normalizeQuery query) as [|t ts]; [discriminate |].
    change (Z.of_nat (List.length (t :: ts)) =? 0) with false. cbv iota.
    destruct (filter _ _) as [|x xs]; [discriminate |].
    simpl. intros Heq Hlow. injection Heq as <- _. simpl.
    apply Z.ltb_ge in Hlow. unfold SearchPanel.getScoreBadgeClass.
    replace (6 <=? sc_score x) with true; [reflexivity |].
    symmetry. apply Z.leb_le. lia.
  - intros m Hin. rewrite <- Hm in Hin.
    destruct (match_scored kb query topN m Hin) as (_ & _ & Hpos).
    unfold SearchPanel.getScoreBadgeClass.
    destruct (6 <=? m_score m) eqn:H6; [discriminate |].
    destruct (3 <=? m_score m) eqn:H3; [discriminate |].
    apply Z.leb_gt in H3. lia.
Qed.

Lemma top_match_badge_witness :
  SearchPanel.getScoreBadgeClass 9 = "score-high".
Proof.
  destruct (top_match_badge Sample.kb "windows network wifi" 2
              (toMatch (mkScored Sample.wifiArticle 9))
              [toMatch (mkScored Sample.printerArticle 5)] eq_refl)
    as [Hhigh _].
  apply Hhigh. reflexivity.
Defined.

End RankingExtras.

(** * Further properties of the state machine *)

Section StepperMoreFacts.

Import Stepper.

Lemma setAdd_includes (x : string) (l : list string) :
  JS.setAdd x l = if JS.includes l x then l else (l ++ [x])%list.
Proof.
  unfold JS.includes. induction l as [|y t IH]; simpl; [reflexivity |].
  destruct (String.eqb x y); simpl; [reflexivity |].
  rewrite IH. destruct (existsb (String.eqb x) t); reflexivity.
Qed.

Lemma setAdd_In (x y : string) (l : list string) :
  In y (JS.setAdd x l) <-> y = x \/ In y l.
Proof.
  rewrite setAdd_includes. destruct (JS.includes l x) eqn:Hx.
  - apply includes_In in Hx. split; [tauto |].
    intros [-> | Hy]; assumption.
  - rewrite in_app_iff. simpl. intuition congruence.
Qed.

Lemma setAdd_twice (x : string) (l : list string) :
  JS.setAdd x (JS.setAdd x l) = JS.setAdd x l.
Proof.
  rewrite (setAdd_includes x (JS.setAdd x l)).
  replace (JS.includes (JS.setAdd x l) x) with true; [reflexivity |].
  symmetry. apply includes_In, setAdd_In. left. reflexivity.
Qed.

Lemma setAdd_NoDup (x : string) (l : list string) :
  NoDup l -> NoDup (JS.setAdd x l).
Proof.
  intros Hnd. rewrite setAdd_includes.
  destruct (JS.includes l x) eqn:Hx; [exact Hnd |].
  apply NoDup_app; [exact Hnd | repeat constructor; intros [] |].
  intros y Hy [<- | []]. apply includes_In in Hy. congruence.
Qed.

(** The current step depends on the state through the path and the index
    alone. *)
Lemma getCurrentStep_same (article : option Article) (s s' : State) :
  activePath s' = activePath s -> currentStepIndex s' = currentStepIndex s ->
  getCurrentStep article s' = getCurrentStep article s.
Proof.
  intros Hp Hi. unfold getCurrentStep.
  rewrite (steps_same_path article s s' Hp), Hi. reflexivity.
Qed.

Lemma getCurrentStep_nth (article : option Article) (s : State) :
  0 <= currentStepIndex s ->
  getCurrentStep article s
  = nth_error (getStepsForActivePath article s)
      (Z.to_nat (currentStepIndex s)).
Proof.
  intros Hnn. unfold getCurrentStep, index.
  destruct article as [a|].
  - destruct (lengthZ _ <=? currentStepIndex s) eqn:Hle.
    + symmetry. apply nth_error_None. apply Z.leb_le in Hle.
      unfold lengthZ in Hle. lia.
    + destruct (currentStepIndex s <? 0) eqn:Hneg; [| reflexivity].
      apply Z.ltb_lt in Hneg. lia.
  - simpl. destruct (Z.to_nat (currentStepIndex s)); reflexivity.
Qed.

Lemma continue_state (article : option Article) (s : State) (st : Step) :
  getCurrentStep article s = Some st ->
  snd (continue article s)
  = mkState (selectedArticleId s) (activePath s) (currentStepIndex s + 1)
      (JS.setAdd (step_id st) (completedStepIds s))
      (attemptedPaths s) (failureHistory s).
Proof.
  intros Hcur. unfold continue. rewrite Hcur. reflexivity.
Qed.

Lemma reachable_inRange (article : option Article) (ops : list Op) :
  indexInRange article (run article initialState ops).
Proof.
  apply run_indexInRange. unfold indexInRange, lengthZ. simpl. lia.
Qed.

(** Where the steps of the active path come from. *)
Lemma activeSteps_in_article (a : Article) (s : State) (st : Step) :
  In st (getStepsForActivePath (Some a) s) -> In st (Reference.allSteps a).
Proof.
  unfold getStepsForActivePath, Reference.allSteps, findFallback.
  intros Hin. apply in_or_app.
  destruct (String.eqb (activePath s) "main").
  - left. destruct (art_steps a); [exact Hin | destruct Hin].
  - right. destruct (art_fallbacks a) as [fbs|]; [| destruct Hin].
    destruct (find _ fbs) as [fb|] eqn:Hf; [| destruct Hin].
    apply find_some in Hf as [Hfb _].
    apply in_flat_map. exists fb. split; [exact Hfb |].
    destruct (fb_steps fb); [exact Hin | destruct Hin].
Qed.

Lemma run_app (article : option Article) (s : State) (ops ops' : list Op) :
  run article s (ops ++ ops') = run article (run article s ops) ops'.
Proof. unfold run. apply fold_left_app. Qed.

(** Induction over the calls made so far, last call first. *)
Lemma reachable_ind (article : option Article) (P : State -> Prop) :
  P initialState ->
  (forall s op, indexInRange article s -> P s -> P (step article s op)) ->
  forall ops, P (run article initialState ops).
Proof.
  intros Hinit Hstep ops.
  induction ops as [|op ops IH] using rev_ind; [exact Hinit |].
  rewrite run_app. simpl. apply Hstep; [| exact IH].
  apply reachable_inRange.
Qed.

End StepperMoreFacts.

Section StepperExtras.

Import Stepper.

(** Extra X12.  In every reachable state the getters agree with one
    another: [getTotalSteps] is the length of [getStepsForActivePath],
    [getCurrentStep] is the element of that list at [currentStepIndex], and
    [isComplete] holds exactly when [getCurrentStep] is null. *)
Theorem getters_agree (article : option Article) (ops : list Op) :
  let s := run article initialState ops in
  let steps := getStepsForActivePath article s in
  getTotalSteps article s = lengthZ steps
  /\ getCurrentStep article s
     = nth_error steps (Z.to_nat (currentStepIndex s))
  /\ (isComplete article s = true <-> getCurrentStep article s = None).
Proof.
  intros s steps.
  pose proof (reachable_inRange article ops) as Hin.
  fold s in Hin. unfold indexInRange in Hin. fold steps in Hin.
  assert (Hnth : getCurrentStep article s
                 = nth_error steps (Z.to_nat (currentStepIndex s)))
    by (apply getCurrentStep_nth; lia).
  split; [apply totalSteps_length |]. split; [exact Hnth |].
  rewrite Hnth, nth_error_None. unfold isComplete. fold steps.
  rewrite Z.leb_le. unfold lengthZ. lia.
Qed.

(** Extra X13.  What [continue] reports describes the state it leaves
    behind: in every reachable state [completed] equals [isComplete]
    afterwards, and [nextStep], [currentStepIndex] and [totalSteps] of the
    full result are the current step, the index and the total of the new
    state; the bare result leaves the state untouched. *)
Theorem continue_reports_new_state (article : option Article)
    (ops : list Op) :
  let s := run article initialState ops in
  let r := fst (continue article s) in
  let s' := snd (continue article s) in
  cr_completed r = isComplete article s'
  /\ match r with
     | AlreadyDone => s' = s
     | Advanced _ nextStep idx total =>
         nextStep = getCurrentStep article s'
         /\ idx = currentStepIndex s'
         /\ total = getTotalSteps article s'
     end.
Proof.
  intros s r s'. subst r s'.
  pose proof (reachable_inRange article ops) as Hin.
  fold s in Hin. unfold indexInRange in Hin.
  unfold continue.
  destruct (getCurrentStep article s) as [st|] eqn:Hcur; simpl.
  - split; [reflexivity |]. split; [| split; reflexivity].
    match goal with
    | |- (if ?c then _ else _) = _ => destruct c eqn:Hlast; [| reflexivity]
    end.
    symmetry. apply getCurrentStep_past_end. apply Z.leb_le, Hlast.
  - split; [| reflexivity].
    symmetry. apply Z.leb_le. apply getCurrentStep_none; [lia | exact Hcur].
Qed.

Lemma step_completed_grows (article : option Article) (s : State) (op : Op) :
  isSessionStart op = false ->
  exists ext,
    completedStepIds (step article s op) = (completedStepIds s ++ ext)%list
    /\ (NoDup (completedStepIds s) ->
        NoDup (completedStepIds (step article s op)))
    /\ (isContinue op = false -> ext = []).
Proof.
  destruct op as [| articleId now | | | stepId reason note now
                  | fallbackId now]; simpl; try discriminate; intros _.
  - unfold continue.
    destruct (getCurrentStep article s) as [st|]; simpl.
    + rewrite setAdd_includes.
      destruct (JS.includes (completedStepIds s) (step_id st)) eqn:Hinc.
      * exists []. rewrite app_nil_r. split; [reflexivity |].
        split; [tauto | discriminate].
      * exists [step_id st]. split; [reflexivity |].
        split; [| discriminate].
        intros Hnd. apply NoDup_app; [exact Hnd | repeat constructor; intros [] |].
        intros y Hy [<- | []]. apply includes_In in Hy. congruence.
    + exists []. rewrite app_nil_r. split; [reflexivity |].
      split; [tauto | discriminate].
  - unfold back. destruct (0 <? currentStepIndex s); simpl;
      exists []; rewrite app_nil_r; tauto.
  - exists []. rewrite app_nil_r. tauto.
  - exists []. rewrite app_nil_r. tauto.
Qed.

(** Extra X14.  Within a session ([continue], [back], [recordFailure]
    and [switchToFallback] in any order) [completedStepIds] only grows at its
    end, entries are never removed or reordered, it never holds an identifier
    twice, and a sequence without [continue] leaves it as it was. *)
Theorem completedStepIds_only_grow (article : option Article) (s : State)
    (ops : list Op) :
  forallb (fun op => negb (isSessionStart op)) ops = true ->
  exists ext,
    completedStepIds (run article s ops) = (completedStepIds s ++ ext)%list
    /\ (NoDup (completedStepIds s) ->
        NoDup (completedStepIds (run article s ops)))
    /\ (forallb (fun op => negb (isContinue op)) ops = true -> ext = []).
Proof.
  unfold run. revert s.
  induction ops as [|op rest IH]; intros s Hops; simpl.
  - exists []. rewrite app_nil_r. tauto.
  - simpl in Hops. apply andb_true_iff in Hops as [Hop Hrest].
    apply negb_true_iff in Hop.
    destruct (step_completed_grows article s op Hop) as (e1 & H1 & N1 & C1).
    destruct (IH (step article s op) Hrest) as (e2 & H2 & N2 & C2).
    exists (e1 ++ e2)%list. rewrite H2, H1, app_assoc.
    split; [reflexivity |]. split.
    + intros Hnd. rewrite <- H1, <- H2. apply N2, N1, Hnd.
    + intros Hno. apply andb_true_iff in Hno as [Hc Hr].
      apply negb_true_iff in Hc. rewrite (C1 Hc), (C2 Hr). reflexivity.
Qed.

Lemma completedStepIds_only_grow_witness :
  exists ext,
    completedStepIds
      (run (Some Sample.emailArticle)
         (mkState (Some 1) "main" 1 ["s1"] [] [])
         [OpContinue; OpBack; OpContinue; OpSwitchToFallback "fb1" "t1";
          OpContinue])
    = (["s1"] ++ ext)%list.
Proof.
  destruct (completedStepIds_only_grow (Some Sample.emailArticle)
              (mkState (Some 1) "main" 1 ["s1"] [] [])
              [OpContinue; OpBack; OpContinue; OpSwitchToFallback "fb1" "t1";
               OpContinue] eq_refl) as (ext & Hext & _).
  exists ext. exact Hext.
Defined.

(** Extra X15.  Stepping back and continuing again changes nothing: when
    there is a current step, [continue], [back], [continue] ends in the same
    state, with the same result, as the first [continue] alone. *)
Theorem continue_back_continue (article : option Article) (s : State)
    (st : Step) :
  getCurrentStep article s = Some st ->
  br_success (fst (back (snd (continue article s)))) = true
  /\ continue article (snd (back (snd (continue article s))))
     = continue article s.
Proof.
  intros Hcur.
  pose proof (getCurrentStep_some article s st Hcur) as [[Hnn _] _].
  pose proof (continue_state article s st Hcur) as Hs1.
  set (s1 := snd (continue article s)) in *.
  assert (Hpos : (0 <? currentStepIndex s1) = true).
  { rewrite Hs1. simpl. apply Z.ltb_lt. lia. }
  unfold back. rewrite Hpos. simpl. split; [reflexivity |].
  set (s2 := mkState _ _ _ _ _ _).
  assert (Hcur2 : getCurrentStep article s2 = Some st).
  { rewrite <- Hcur. apply getCurrentStep_same; unfold s2; rewrite Hs1; simpl;
      [reflexivity | lia]. }
  unfold continue at 1. rewrite Hcur2.
  unfold continue. rewrite Hcur.
  unfold s2. rewrite Hs1. simpl.
  rewrite setAdd_twice.
  replace (currentStepIndex s + 1 - 1 + 1) with (currentStepIndex s + 1)
    by lia.
  reflexivity.
Qed.

Lemma continue_back_continue_witness :
  continue (Some Sample.emailArticle)
    (snd (back (snd (continue (Some Sample.emailArticle)
                       (mkState (Some 1) "main" 0 [] [] [])))))
  = continue (Some Sample.emailArticle) (mkState (Some 1) "main" 0 [] [] []).
Proof.
  apply (continue_back_continue (Some Sample.emailArticle)
           (mkState (Some 1) "main" 0 [] [] [])
           (mkStep "s1" "Check the connection" None None)).
  reflexivity.
Defined.

(** Extra X16.  In every reachable state the active path is the path of
    the newest entry of [attemptedPaths], and it is "main" while there is no
    entry. *)
Theorem activePath_is_last_attempt (article : option Article)
    (ops : list Op) :
  let s := run article initialState ops in
  last (map ap_path (attemptedPaths s)) "main" = activePath s.
Proof.
  apply (reachable_ind article
           (fun s => last (map ap_path (attemptedPaths s)) "main"
                     = activePath s)); [reflexivity |].
  intros s op _ IH.
  destruct op as [| articleId now | | | stepId reason note now
                  | fallbackId now]; simpl.
  - reflexivity.
  - reflexivity.
  - unfold continue. destruct (getCurrentStep article s); exact IH.
  - unfold back. destruct (0 <? currentStepIndex s); exact IH.
  - exact IH.
  - rewrite map_app. simpl. apply last_last.
Qed.

Lemma firstn_snoc {A} (l : list A) (k : nat) (x : A) :
  nth_error l k = Some x -> firstn (S k) l = (firstn k l ++ [x])%list.
Proof.
  revert k. induction l as [|y t IH]; intros [|k]; simpl; try discriminate.
  - intros H. injection H as ->. destruct t; reflexivity.
  - intros H. rewrite <- (IH k H). reflexivity.
Qed.

Lemma collectIds_snoc (steps : list Step) (st : Step) :
  Reference.collectIds (steps ++ [st])
  = JS.setAdd (step_id st) (Reference.collectIds steps).
Proof. unfold Reference.collectIds. rewrite fold_left_app. reflexivity. Qed.

Lemma collectIds_distinct (steps : list Step) :
  NoDup (map step_id steps) ->
  Reference.collectIds steps = map step_id steps.
Proof.
  induction steps as [|st rest IH] using rev_ind; [reflexivity |].
  rewrite map_app. simpl. intros Hnd.
  rewrite collectIds_snoc, IH by (apply NoDup_app_remove_r in Hnd; exact Hnd).
  rewrite setAdd_includes.
  destruct (JS.includes (map step_id rest) (step_id st)) eqn:Hin;
    [| reflexivity].
  apply includes_In in Hin. exfalso.
  apply NoDup_remove_2 in Hnd. rewrite app_nil_r in Hnd. exact (Hnd Hin).
Qed.

(** The state after [k] calls of [continue] on a fresh main path. *)
Lemma continueTimes_completed (a : Article) (l : list Step) (s0 : State)
    (k : nat) :
  art_steps a = Some l ->
  activePath s0 = "main" -> currentStepIndex s0 = 0 ->
  completedStepIds s0 = [] ->
  (k <= List.length l)%nat ->
  completedStepIds (continueTimes k (Some a) s0)
  = Reference.collectIds (firstn k l).
Proof.
  intros Hsteps Hpath Hidx Hnone.
  induction k as [|k IH]; intros Hk; [exact Hnone |].
  destruct (continueTimes_main a l s0 k Hsteps Hpath Hidx) as [Hp Hi]; [lia |].
  destruct (nth_error l k) as [st|] eqn:Hnth;
    [| apply nth_error_None in Hnth; lia].
  assert (Hcur : getCurrentStep (Some a) (continueTimes k (Some a) s0)
                 = Some st).
  { rewrite getCurrentStep_nth by lia.
    unfold getStepsForActivePath. rewrite Hp, Hsteps, Hi, Nat2Z.id.
    exact Hnth. }
  simpl continueTimes. rewrite (continue_state _ _ _ Hcur).
  cbn [completedStepIds]. rewrite IH by lia.
  rewrite (firstn_snoc l k st Hnth), collectIds_snoc. reflexivity.
Qed.

(** Extra X17.  After a fresh [startArticle], [k] calls of [continue]
    leave in [completedStepIds] the identifiers of the first [k] main steps,
    each once, in step order; when the identifiers of the steps are distinct,
    [getCompletionSummary] lists exactly those [k] identifiers in order. *)
Theorem completed_ids_after_continues (a : Article) (l : list Step)
    (articleId : Z) (now later : string) (prior : State) (k : nat) :
  art_steps a = Some l ->
  (k <= List.length l)%nat ->
  let s := continueTimes k (Some a)
             (snd (startArticle articleId (Some a) now prior)) in
  completedStepIds s = Reference.collectIds (firstn k l)
  /\ (NoDup (map step_id l) ->
      cs_completedSteps (getCompletionSummary later s)
      = map step_id (firstn k l)).
Proof.
  intros Hsteps Hk s.
  assert (Hids : completedStepIds s = Reference.collectIds (firstn k l)).
  { apply continueTimes_completed; auto. }
  split; [exact Hids |].
  intros Hnd. simpl. rewrite Hids. apply collectIds_distinct.
  rewrite <- (firstn_skipn k l), map_app in Hnd.
  apply NoDup_app_remove_r in Hnd. exact Hnd.
Qed.

Lemma completed_ids_after_continues_witness :
  completedStepIds
    (continueTimes 2 (Some Sample.emailArticle)
       (snd (startArticle 1 (Some Sample.emailArticle) "t0" initialState)))
  = ["s1"; "s2"].
Proof.
  destruct (completed_ids_after_continues Sample.emailArticle
              [mkStep "s1" "Check the connection" None None;
               mkStep "s2" "Restart Outlook" None None]
              1 "t0" "t9" initialState 2 eq_refl) as [Hids _];
    [simpl; lia |].
  rewrite Hids. reflexivity.
Defined.

(** Extra X18.  The state machine never marks as completed an identifier
    that is not the identifier of a step of the article, on its main path or
    on one of its fallback paths; without an article it marks nothing. *)
Theorem completed_ids_belong_to_article (article : option Article)
    (ops : list Op) :
  let s := run article initialState ops in
  Forall
    (fun id =>
       In id (map step_id
                (match article with
                 | Some a => Reference.allSteps a
                 | None => []
                 end)))
    (completedStepIds s).
Proof.
  apply (reachable_ind article
           (fun s => Forall
                       (fun id =>
                          In id (map step_id
                                   (match article with
                                    | Some a => Reference.allSteps a
                                    | None => []
                                    end)))
                       (completedStepIds s))); [constructor |].
  intros s op Hrange IH.
  destruct op as [| articleId now | | | stepId reason note now
                  | fallbackId now]; simpl.
  - constructor.
  - constructor.
  - unfold continue.
    destruct (getCurrentStep article s) as [st|] eqn:Hcur; [| exact IH].
    simpl. apply Forall_forall. intros id Hid.
    apply setAdd_In in Hid as [-> | Hid];
      [| rewrite Forall_forall in IH; apply IH, Hid].
    apply getCurrentStep_some in Hcur as [_ Hnth].
    apply nth_error_In in Hnth.
    destruct article as [a|]; [| destruct Hnth].
    apply in_map, (activeSteps_in_article a s), Hnth.
  - unfold back. destruct (0 <? currentStepIndex s); exact IH.
  - exact IH.
  - exact IH.
Qed.

Lemma continueTimes_index (article : option Article) (s : State) (k : nat) :
  indexInRange article s ->
  activePath (continueTimes k article s) = activePath s
  /\ currentStepIndex (continueTimes k article s)
     = Z.min (currentStepIndex s + Z.of_nat k)
         (lengthZ (getStepsForActivePath article s)).
Proof.
  intros Hin. unfold indexInRange in Hin.
  induction k as [|k [IHp IHi]]; [split; [reflexivity | simpl; lia] |].
  simpl continueTimes.
  pose proof (steps_same_path article s (continueTimes k article s) IHp)
    as Hsteps.
  destruct (Z.lt_ge_cases (currentStepIndex s + Z.of_nat k)
              (lengthZ (getStepsForActivePath article s))) as [Hlt | Hge].
  - destruct (continue_advances article (continueTimes k article s))
      as (Hp & Hi & _); [rewrite Hsteps, IHi; lia |].
    rewrite Hp, Hi, IHp, IHi. split; [reflexivity | lia].
  - rewrite continue_past_end by (rewrite Hsteps, IHi; lia).
    cbn [snd]. rewrite IHp, IHi. split; [reflexivity | lia].
Qed.

(** Extra X19.  On any path and from any index within it, the path is
    complete after [k] calls of [continue] exactly when [k] is at least the
    number of steps that were left; the index moves up by one per call and
    stops at the number of steps. *)
Theorem continue_reaches_end (article : option Article) (s : State)
    (k : nat) :
  indexInRange article s ->
  let total := lengthZ (getStepsForActivePath article s) in
  currentStepIndex (continueTimes k article s)
  = Z.min (currentStepIndex s + Z.of_nat k) total
  /\ (isComplete article (continueTimes k article s) = true
      <-> total - currentStepIndex s <= Z.of_nat k).
Proof.
  intros Hin total.
  destruct (continueTimes_index article s k Hin) as [Hp Hi].
  fold total in Hi. split; [exact Hi |].
  unfold isComplete.
  rewrite (steps_same_path article s _ Hp), Hi. fold total.
  rewrite Z.leb_le. unfold indexInRange in Hin. fold total in Hin. lia.
Qed.

Lemma continue_reaches_end_witness :
  isComplete (Some Sample.emailArticle)
    (continueTimes 2 (Some Sample.emailArticle)
       (mkState (Some 1) "fb1" 0 [] [] []))
  = true.
Proof.
  destruct (continue_reaches_end (Some Sample.emailArticle)
              (mkState (Some 1) "fb1" 0 [] [] []) 2) as [_ Hdone].
  - unfold indexInRange, lengthZ. simpl. lia.
  - apply Hdone. unfold lengthZ. simpl. lia.
Defined.

End StepperExtras.

(** * The side panel on top of the state machine *)

Section SidePanelExtras.

Import Stepper SidePanel.

Lemma continue_completed_after (article : option Article) (s : State) :
  indexInRange article s ->
  cr_completed (fst (continue article s))
  = isComplete article (snd (continue article s)).
Proof.
  intros Hin. unfold indexInRange in Hin. unfold continue.
  destruct (getCurrentStep article s) as [st|] eqn:Hcur; simpl.
  - reflexivity.
  - symmetry. apply Z.leb_le. apply getCurrentStep_none; [lia | exact Hcur].
Qed.

(** Extra X20.  In every reachable state [renderCurrentStep] shows the
    completion summary exactly when the path is complete; otherwise it shows
    the current step under its 1-based number, which lies between 1 and the
    total, and it disables the Back button exactly when [back()] would
    fail. *)
Theorem renderCurrentStep_consistent (article : option Article)
    (ops : list Op) :
  let s := run article initialState ops in
  match renderCurrentStep article s with
  | CompletionView => isComplete article s = true
  | StepCardView number step backDisabled =>
      isComplete article s = false
      /\ getCurrentStep article s = Some step
      /\ number = currentStepIndex s + 1
      /\ 1 <= number <= getTotalSteps article s
      /\ backDisabled = negb (br_success (fst (back s)))
  end.
Proof.
  intros s.
  pose proof (reachable_inRange article ops) as Hin.
  fold s in Hin. unfold indexInRange in Hin.
  unfold renderCurrentStep.
  destruct (getCurrentStep article s) as [st|] eqn:Hcur.
  - pose proof (getCurrentStep_some article s st Hcur) as [Hlt _].
    unfold isComplete.
    destruct (lengthZ (getStepsForActivePath article s) <=? currentStepIndex s)
      eqn:Hle; [apply Z.leb_le in Hle; lia |].
    split; [reflexivity |]. split; [reflexivity |].
    split; [reflexivity |].
    split; [rewrite totalSteps_length; simpl; lia |].
    simpl. unfold back.
    destruct (Z.eqb_spec (currentStepIndex s) 0) as [He | Hne].
    + rewrite He. reflexivity.
    + replace (0 <? currentStepIndex s) with true; [reflexivity |].
      symmetry. apply Z.ltb_lt. lia.
  - unfold isComplete. apply Z.leb_le.
    apply getCurrentStep_none; [lia | exact Hcur].
Qed.

(** Extra X21.  [handleContinue] performs exactly one [continue], and
    from a reachable state the view it chooses from the result of that call
    is the view [renderCurrentStep] would draw for the new state. *)
Theorem handleContinue_view (article : option Article) (ops : list Op) :
  let s := run article initialState ops in
  snd (handleContinue article s) = snd (continue article s)
  /\ fst (handleContinue article s)
     = renderCurrentStep article (snd (handleContinue article s)).
Proof.
  intros s.
  pose proof (continue_completed_after article s
                (reachable_inRange article ops)) as Hdone.
  fold s in Hdone. unfold handleContinue.
  destruct (continue article s) as [r s'] eqn:Hc. simpl in Hdone.
  destruct (cr_completed r) eqn:Hr; simpl; split; try reflexivity.
  unfold renderCurrentStep. rewrite <- Hdone.
  destruct (getCurrentStep article s'); reflexivity.
Qed.

Lemma shown_fold (steps : list Step) (ids : list string) (acc : list Step) :
  fold_left
    (fun shown stepId =>
       match find (fun st => String.eqb (step_id st) stepId) steps with
       | Some step => (shown ++ [step])%list
       | None => shown
       end)
    ids acc
  = (acc
     ++ flat_map
          (fun stepId =>
             match find (fun st => String.eqb (step_id st) stepId) steps with
             | Some step => [step]
             | None => []
             end)
          ids)%list.
Proof.
  revert acc. induction ids as [|id rest IH]; intros acc; simpl.
  - rewrite app_nil_r. reflexivity.
  - rewrite IH.
    destruct (find (fun st => String.eqb (step_id st) id) steps);
      [rewrite <- app_assoc |]; reflexivity.
Qed.

Lemma find_by_id (steps : list Step) (id : string) :
  match find (fun st => String.eqb (step_id st) id) steps with
  | Some st => step_id st = id /\ JS.includes (map step_id steps) id = true
  | None => JS.includes (map step_id steps) id = false
  end.
Proof.
  destruct (find (fun st => String.eqb (step_id st) id) steps) as [st|] eqn:Hf.
  - apply find_some in Hf as [Hin He]. apply String.eqb_eq in He.
    split; [exact He |]. apply includes_In. rewrite <- He.
    apply in_map, Hin.
  - destruct (JS.includes (map step_id steps) id) eqn:Hinc; [| reflexivity].
    apply includes_In, in_map_iff in Hinc as [st [He Hin]].
    pose proof (find_none _ _ Hf st Hin) as Hne. simpl in Hne.
    rewrite He, String.eqb_refl in Hne. discriminate.
Qed.

(** Extra X23.  The completion view goes through the completed
    identifiers in the order of completion and lists, for each one that occurs
    on the active path, one step: the first step of the active path with
    that identifier.  An identifier that does not occur on the active path,
    such as that of a main step after a switch to a fallback, contributes
    nothing.  So the identifiers of the listed steps are the completed
    identifiers that occur on the active path, in the same order and as often
    as they are completed. *)
Theorem completedStepsShown_on_path (article : option Article)
    (now : string) (s : State) :
  let steps := getStepsForActivePath article s in
  let shown := completedStepsShown article now s in
  map step_id shown
  = filter (JS.includes (map step_id steps)) (completedStepIds s)
  /\ Forall
       (fun st =>
          find (fun x => String.eqb (step_id x) (step_id st)) steps = Some st)
       shown.
Proof.
  intros steps shown. unfold shown, completedStepsShown.
  cbn [cs_completedSteps getCompletionSummary]. fold steps.
  rewrite shown_fold. simpl app.
  induction (completedStepIds s) as [|id rest [IHids IHfind]]; simpl.
  - split; [reflexivity | constructor].
  - pose proof (find_by_id steps id) as Hid.
    destruct (find (fun st => String.eqb (step_id st) id) steps) as [st|]
      eqn:Hf.
    + destruct Hid as [He Hinc]. rewrite Hinc. simpl. split.
      * rewrite He, IHids. reflexivity.
      * constructor; [rewrite He; exact Hf | exact IHfind].
    + rewrite Hid. simpl. split; [exact IHids | exact IHfind].
Qed.

End SidePanelExtras.

(** * Properties of [StepManager] *)

Section StepManagerExtras.

Import StepManager.

Lemma move_keeps_article (art : ManagedArticle) (m : Manager) (mv : Move) :
  currentArticle m = Some art
  /\ maxSteps m = Stepper.lengthZ (ma_steps art)
  /\ 0 <= currentStepIndex m <= Z.max (maxSteps m - 1) 0 ->
  currentArticle (move m mv) = Some art
  /\ maxSteps (move m mv) = Stepper.lengthZ (ma_steps art)
  /\ 0 <= currentStepIndex (move m mv) <= Z.max (maxSteps (move m mv) - 1) 0.
Proof.
  intros (Hart & Hmax & Hidx).
  destruct mv; simpl.
  - unfold nextStep, hasArticle. rewrite Hart. simpl.
    destruct (maxSteps m - 1 <=? currentStepIndex m) eqn:Hle; simpl.
    + tauto.
    + apply Z.leb_gt in Hle. repeat split; try assumption; lia.
  - unfold previousStep, hasArticle. rewrite Hart. simpl.
    destruct (currentStepIndex m <=? 0) eqn:Hle; simpl.
    + tauto.
    + apply Z.leb_gt in Hle. repeat split; try assumption; lia.
  - repeat split; try assumption; lia.
Qed.

Lemma moves_keep_article (art : ManagedArticle) (m0 : Manager)
    (mvs : list Move) :
  let m := moves (setArticle art m0) mvs in
  currentArticle m = Some art
  /\ maxSteps m = Stepper.lengthZ (ma_steps art)
  /\ 0 <= currentStepIndex m <= Z.max (maxSteps m - 1) 0.
Proof.
  unfold moves.
  assert (Hinit : currentArticle (setArticle art m0) = Some art
                  /\ maxSteps (setArticle art m0)
                     = Stepper.lengthZ (ma_steps art)
                  /\ 0 <= currentStepIndex (setArticle art m0)
                     <= Z.max (maxSteps (setArticle art m0) - 1) 0)
    by (simpl; repeat split; lia).
  revert Hinit. generalize (setArticle art m0) as m.
  induction mvs as [|mv rest IH]; intros m Hm; simpl; [exact Hm |].
  apply IH, move_keeps_article, Hm.
Qed.

(** Extra X24.  Once an article with at least one step is loaded, no
    sequence of [nextStep], [previousStep] and [reset] takes the index off
    the steps: [getCurrentStep] never throws and returns the step at the
    index with a step number between 1 and the total, [isFirst] set on the
    first step only and [isLast] on the last only. *)
Theorem stepManager_stays_on_steps (art : ManagedArticle) (m0 : Manager)
    (mvs : list Move) :
  ma_steps art <> [] ->
  let m := moves (setArticle art m0) mvs in
  let n := Stepper.lengthZ (ma_steps art) in
  0 <= currentStepIndex m <= n - 1
  /\ exists step,
       nth_error (ma_steps art) (Z.to_nat (currentStepIndex m)) = Some step
       /\ getCurrentStep m
          = Returned
              (Some (mkInfo (currentStepIndex m + 1) n (textOf step)
                       (currentStepIndex m =? 0)
                       (currentStepIndex m =? n - 1)
                       (ma_title art) (ma_summary art))).
Proof.
  intros Hne m n.
  destruct (moves_keep_article art m0 mvs) as (Hart & Hmax & Hidx).
  fold m in Hart, Hmax, Hidx. fold n in Hmax.
  assert (Hn : 1 <= n).
  { unfold n, Stepper.lengthZ. destruct (ma_steps art); [congruence |].
    simpl List.length. lia. }
  assert (Hrange : 0 <= currentStepIndex m <= n - 1) by lia.
  split; [exact Hrange |].
  destruct (nth_error (ma_steps art) (Z.to_nat (currentStepIndex m)))
    as [step|] eqn:Hnth.
  - exists step. split; [reflexivity |].
    unfold getCurrentStep, Stepper.index. rewrite Hart.
    replace (currentStepIndex m <? 0) with false
      by (symmetry; apply Z.ltb_ge; lia).
    rewrite Hnth, Hmax. reflexivity.
  - apply nth_error_None in Hnth. unfold n, Stepper.lengthZ in Hrange. lia.
Qed.

Lemma stepManager_stays_on_steps_witness :
  getCurrentStep
    (moves (setArticle
              (mkManaged (Some "Printer Offline") None
                 [SimpleStep "Check the cable";
                  EnhancedStep (Some "Please restart the printer")
                    (Some "Restart printer")])
              emptyManager)
       [MoveNext; MoveNext; MoveNext])
  = Returned
      (Some (mkInfo 2 2 (Some "Please restart the printer") false true
               (Some "Printer Offline") None)).
Proof.
  destruct (stepManager_stays_on_steps
              (mkManaged (Some "Printer Offline") None
                 [SimpleStep "Check the cable";
                  EnhancedStep (Some "Please restart the printer")
                    (Some "Restart printer")])
              emptyManager [MoveNext; MoveNext; MoveNext])
    as [_ [step [Hnth Hcur]]]; [discriminate |].
  rewrite Hcur. simpl in Hnth. injection Hnth as <-. reflexivity.
Defined.

(** Extra X25.  After [setArticle] and any moves, a successful
    [nextStep] is undone by [previousStep] and a successful [previousStep] is
    undone by [nextStep]: each pair succeeds and returns to the same state. *)
Theorem nextStep_previousStep_inverse (art : ManagedArticle) (m0 : Manager)
    (mvs : list Move) :
  let m := moves (setArticle art m0) mvs in
  (fst (nextStep m) = true -> previousStep (snd (nextStep m)) = (true, m))
  /\ (fst (previousStep m) = true ->
      nextStep (snd (previousStep m)) = (true, m)).
Proof.
  intros m.
  destruct (moves_keep_article art m0 mvs) as (Hart & Hmax & Hidx).
  fold m in Hart, Hmax, Hidx. clearbody m.
  destruct m as [current idx total]. simpl in *. subst current.
  split.
  - unfold nextStep, hasArticle. simpl.
    destruct (total - 1 <=? idx) eqn:Hle; simpl; [discriminate |].
    intros _. unfold previousStep, hasArticle. simpl.
    replace (idx + 1 <=? 0) with false by (symmetry; apply Z.leb_gt; lia).
    simpl. repeat f_equal. lia.
  - unfold previousStep, hasArticle. simpl.
    destruct (idx <=? 0) eqn:Hle; simpl; [discriminate |].
    apply Z.leb_gt in Hle.
    intros _. unfold nextStep, hasArticle. simpl.
    replace (total - 1 <=? idx - 1) with false
      by (symmetry; apply Z.leb_gt; lia).
    simpl. repeat f_equal. lia.
Qed.

Lemma nextStep_previousStep_inverse_witness :
  previousStep
    (snd (nextStep
            (setArticle
               (mkManaged None None [SimpleStep "a"; SimpleStep "b"])
               emptyManager)))
  = (true,
     setArticle (mkManaged None None [SimpleStep "a"; SimpleStep "b"])
       emptyManager).
Proof.
  destruct (nextStep_previousStep_inverse
              (mkManaged None None [SimpleStep "a"; SimpleStep "b"])
              emptyManager []) as [Hnext _].
  apply Hnext. reflexivity.
Defined.

Lemma nextTimes_index (art : ManagedArticle) (m0 : Manager) (k : nat) :
  currentArticle (nextTimes k (setArticle art m0)) = Some art
  /\ maxSteps (nextTimes k (setArticle art m0))
     = Stepper.lengthZ (ma_steps art)
  /\ currentStepIndex (nextTimes k (setArticle art m0))
     = Z.max 0 (Z.min (Z.of_nat k) (Stepper.lengthZ (ma_steps art) - 1)).
Proof.
  assert (Hn : 0 <= Stepper.lengthZ (ma_steps art))
    by (unfold Stepper.lengthZ; lia).
  induction k as [|k (Hart & Hmax & Hidx)].
  - simpl. repeat split. lia.
  - simpl nextTimes. unfold nextStep, hasArticle. rewrite Hart. simpl.
    destruct (maxSteps _ - 1 <=? currentStepIndex _) eqn:Hle; simpl.
    + apply Z.leb_le in Hle. rewrite Hmax, Hidx in Hle.
      repeat split; try assumption. rewrite Hidx. lia.
    + apply Z.leb_gt in Hle. rewrite Hmax, Hidx in Hle.
      repeat split; try assumption. rewrite Hidx. lia.
Qed.

(** Extra X26.  Starting from [setArticle] on an article with [n >= 1]
    steps, [k] calls of [nextStep] put the index at the smaller of [k] and
    [n - 1]; a further [nextStep] succeeds exactly while [k < n - 1], so the
    index never goes past the last step. *)
Theorem nextStep_stops_at_last (art : ManagedArticle) (m0 : Manager)
    (k : nat) :
  ma_steps art <> [] ->
  let n := Stepper.lengthZ (ma_steps art) in
  let m := nextTimes k (setArticle art m0) in
  currentStepIndex m = Z.min (Z.of_nat k) (n - 1)
  /\ (fst (nextStep m) = true <-> Z.of_nat k < n - 1).
Proof.
  intros Hne n m.
  destruct (nextTimes_index art m0 k) as (Hart & Hmax & Hidx).
  fold m in Hart, Hmax, Hidx. fold n in Hmax, Hidx.
  assert (Hn : 1 <= n).
  { unfold n, Stepper.lengthZ. destruct (ma_steps art); [congruence |].
    simpl List.length. lia. }
  split; [lia |].
  unfold nextStep, hasArticle. rewrite Hart, Hmax, Hidx. simpl.
  destruct (n - 1 <=? Z.max 0 (Z.min (Z.of_nat k) (n - 1))) eqn:Hle; simpl.
  - apply Z.leb_le in Hle. split; [discriminate | lia].
  - apply Z.leb_gt in Hle. split; [lia | reflexivity].
Qed.

Lemma nextStep_stops_at_last_witness :
  currentStepIndex
    (nextTimes 5
       (setArticle (mkManaged None None [SimpleStep "a"; SimpleStep "b"])
          emptyManager))
  = 1.
Proof.
  destruct (nextStep_stops_at_last
              (mkManaged None None [SimpleStep "a"; SimpleStep "b"])
              emptyManager 5) as [Hidx _]; [discriminate |].
  rewrite Hidx. reflexivity.
Defined.

(** Extra X27.  For an article with an empty list of steps the manager
    sits at index 0 of nothing: whatever moves are made, [nextStep] and
    [previousStep] refuse and [getCurrentStep] throws instead of returning. *)
Theorem stepManager_no_steps (art : ManagedArticle) (m0 : Manager)
    (mvs : list Move) :
  ma_steps art = [] ->
  let m := moves (setArticle art m0) mvs in
  getCurrentStep m = Thrown
  /\ nextStep m = (false, m)
  /\ previousStep m = (false, m).
Proof.
  intros Hnil m.
  destruct (moves_keep_article art m0 mvs) as (Hart & Hmax & Hidx).
  fold m in Hart, Hmax, Hidx.
  rewrite Hnil in Hmax. unfold Stepper.lengthZ in Hmax. simpl in Hmax.
  assert (Hzero : currentStepIndex m = 0) by lia.
  unfold getCurrentStep, nextStep, previousStep, hasArticle, Stepper.index.
  rewrite Hart, Hmax, Hzero, Hnil. simpl. repeat split.
Qed.

Lemma stepManager_no_steps_witness :
  getCurrentStep
    (moves (setArticle (mkManaged (Some "Empty") None []) emptyManager)
       [MoveNext; MoveReset])
  = Thrown.
Proof.
  apply (stepManager_no_steps (mkManaged (Some "Empty") None [])
           emptyManager [MoveNext; MoveReset]).
  reflexivity.
Defined.

End StepManagerExtras.
